(** * keep-alive.js: the LRU cache of Vue's <keep-alive> component

    A shallow embedding of [src/keep-alive/keep-alive.js].  The JavaScript
    objects the component works on are modelled as follows.

    - [cache] is a prototype-less object used as a map from property name
      to a VNode or [null].  Properties are never deleted, only overwritten,
      and [for ... in] walks them in property order, so the object is an
      association list in creation order ([JsLib.own_keys] gives the
      enumeration order).
    - [keys] is an array of strings: a [list string].
    - VNodes are shared mutable objects.  The fields the component only
      reads ([key], [tag], [componentOptions]) are part of the [VNode]
      value together with the object identity [vid]; the fields that are
      assigned through aliases ([componentInstance], [data.keepAlive]) live
      in field stores of the [World], indexed by identity.
    - [$destroy()] is foreign code: its observable effect is an entry in
      [destroyed_log] and either a normal return or a raised error. *)

From Stdlib Require Import ZArith List String Ascii Bool Lia DecimalString DecimalPos.
From stdpp Require Import base option list gmap strings.

Local Open Scope string_scope.
Local Open Scope list_scope.

(** ** The JavaScript built-ins the component relies on *)
Module JsLib.

(** [s.split(',')]: the fields between the commas, at least one. *)
Fixpoint split_comma_aux (cur : string) (s : string) : list string :=
  match s with
  | EmptyString => [cur]
  | String c rest =>
      if Ascii.eqb c ","%char
      then cur :: split_comma_aux EmptyString rest
      else split_comma_aux (cur ++ String c EmptyString) rest
  end.

Definition split_comma (s : string) : list string :=
  split_comma_aux EmptyString s.

(** [arr.indexOf(x) > -1] on an array of strings (strict equality). *)
Definition includes (arr : list string) (x : string) : bool :=
  existsb (String.eqb x) arr.

(** Modelled from the spec: [remove] of Vue's [shared/util], which is
    imported by the source and not part of it.  The spec's [removeKey]
    removes the key "from anywhere in the sequence; no-op if absent";
    the repository's notes spell it as [indexOf] followed by
    [splice(index, 1)], that is, the first occurrence goes. *)
Fixpoint remove (arr : list string) (item : string) : list string :=
  match arr with
  | [] => []
  | x :: rest => if String.eqb x item then rest else x :: remove rest item
  end.

(** *** [parseInt(string)] with no radix argument (ECMAScript 19.2.5),
    on strings of ASCII characters *)

Definition is_white (c : ascii) : bool :=
  let n := nat_of_ascii c in
  (n =? 32)%nat || ((9 <=? n)%nat && (n <=? 13)%nat).

Fixpoint trim_start (s : string) : string :=
  match s with
  | String c rest => if is_white c then trim_start rest else s
  | EmptyString => EmptyString
  end.

Definition digit_value (c : ascii) : option Z :=
  let n := Z.of_nat (nat_of_ascii c) in
  if (48 <=? n)%Z && (n <=? 57)%Z then Some (n - 48)%Z
  else if (97 <=? n)%Z && (n <=? 122)%Z then Some (n - 87)%Z
  else if (65 <=? n)%Z && (n <=? 90)%Z then Some (n - 55)%Z
  else None.

(** The longest prefix of radix-[r] digits, folded into its value;
    [None] when there is no digit at all. *)
Fixpoint digits (r : Z) (acc : option Z) (s : string) : option Z :=
  match s with
  | EmptyString => acc
  | String c rest =>
      match digit_value c with
      | Some d =>
          if (d <? r)%Z
          then digits r (Some (r * default 0%Z acc + d)%Z) rest
          else acc
      | None => acc
      end
  end.

Definition strip_sign (s : string) : Z * string :=
  match s with
  | String "-" rest => ((-1)%Z, rest)
  | String "+" rest => (1%Z, rest)
  | _ => (1%Z, s)
  end.

Definition strip_hex (s : string) : Z * string :=
  match s with
  | String "0" (String "x" rest) => (16%Z, rest)
  | String "0" (String "X" rest) => (16%Z, rest)
  | _ => (10%Z, s)
  end.

(** [None] stands for NaN.  The result is the integer the digits denote;
    JavaScript rounds it to the nearest Number, which changes it only
    beyond 2^53 and makes no difference to its comparison with the length
    of an array. *)
Definition parseInt_string (s : string) : option Z :=
  let '(sign, s1) := strip_sign (trim_start s) in
  let '(radix, s2) := strip_hex s1 in
  match digits radix None s2 with
  | Some n => Some (sign * n)%Z
  | None => None
  end.

(** [Number.isSafeInteger(z)]: the integers of magnitude below 2^53.
    Each of them is a Number, and [String] prints it as its decimal
    digits.  (Beyond them not every integer is a Number, and from 1e21 on
    [String] prints the exponent form, as in ["1e+21"].) *)
Definition is_safe_integer (z : Z) : bool := (Z.abs z <? 2 ^ 53)%Z.

Class SafeInteger (z : Z) : Prop :=
  safe_integer : is_safe_integer z = true.

#[global] Hint Extern 0 (SafeInteger _) => exact (eq_refl true) :
  typeclass_instances.

(** [String(n)] for a safe integer [n]: its decimal digits, with a minus
    sign when it is negative. *)
Definition number_to_string (z : Z) : string :=
  NilZero.string_of_int (Z.to_int z).

(** *** Property enumeration order of an ordinary object

    [for (key in obj)] visits the own properties of a prototype-less
    object with the array indices first, in ascending numeric order, and
    then the other names in creation order. *)

Definition array_index (s : string) : option N :=
  match NilZero.uint_of_string s with
  | Some d =>
      let n := N.of_uint d in
      if String.eqb (NilZero.string_of_uint (N.to_uint n)) s
         && (n <? 4294967295)%N
      then Some n else None
  | None => None
  end.

Fixpoint insert_index (x : N * string) (l : list (N * string)) :
  list (N * string) :=
  match l with
  | [] => [x]
  | y :: rest =>
      if (fst x <=? fst y)%N then x :: l else y :: insert_index x rest
  end.

Definition sort_indices (l : list (N * string)) : list (N * string) :=
  fold_right insert_index [] l.

Fixpoint index_names (names : list string) : list (N * string) :=
  match names with
  | [] => []
  | s :: rest =>
      match array_index s with
      | Some n => (n, s) :: index_names rest
      | None => index_names rest
      end
  end.

Fixpoint plain_names (names : list string) : list string :=
  match names with
  | [] => []
  | s :: rest =>
      match array_index s with
      | Some _ => plain_names rest
      | None => s :: plain_names rest
      end
  end.

(** Enumeration order of property names given in creation order. *)
Definition own_keys (names : list string) : list string :=
  map snd (sort_indices (index_names names)) ++ plain_names names.

End JsLib.

(** ** Data model *)

(** [include] / [exclude]: a string, a regular expression (its [test]
    method) or an array of names; [PUndefined] when the prop is not set. *)
Inductive Pattern :=
| PUndefined
| PString (s : string)
| PRegExp (test : string -> bool)
| PArray (names : list string).

(** [max]: a string or a number; [MaxUndefined] when the prop is not
    set.  The numbers covered are the safe integers: [MaxNumber z] takes
    the bound on [z] with it, so that no other number can be written. *)
Inductive MaxProp :=
| MaxUndefined
| MaxString (s : string)
| MaxNumber (z : Z) {safe : JsLib.SafeInteger z}.

(** [vnode.componentOptions]: [Ctor.cid], [Ctor.options.name], [tag].
    [Ctor.cid] is the counter that [Vue.extend] increments by one for each
    constructor. *)
Record ComponentOptions := {
  Ctor_cid : nat;
  Ctor_options_name : option string;
  opts_tag : option string
}.

(** A VNode object: its identity and the fields that are only read. *)
Record VNode := {
  vid : nat;
  key : option string;
  tag : option string;
  componentOptions : option ComponentOptions
}.

(** A component instance, seen through its [$destroy] method: its
    identity and whether a call of [$destroy] raises (the same at every
    call). *)
Record Instance := {
  iid : nat;
  destroy_raises : bool
}.

Definition Instance_eq_dec (a b : Instance) : {a = b} + {a <> b}.
Proof. decide equality; [apply bool_dec | apply Nat.eq_dec]. Defined.

(** The keep-alive instance ([this]) and the heap fields it reaches. *)
Record World := {
  cache : list (string * option VNode);
  keys : list string;
  include : Pattern;
  exclude : Pattern;
  max : MaxProp;
  _vnode : option VNode;
  componentInstance : gmap nat Instance;
  keepAlive : gset nat;
  destroyed_log : list Instance
}.

Definition set_cache (c : list (string * option VNode)) (w : World) : World :=
  {| cache := c; keys := keys w; include := include w; exclude := exclude w;
     max := max w; _vnode := _vnode w;
     componentInstance := componentInstance w; keepAlive := keepAlive w;
     destroyed_log := destroyed_log w |}.

Definition set_keys (ks : list string) (w : World) : World :=
  {| cache := cache w; keys := ks; include := include w; exclude := exclude w;
     max := max w; _vnode := _vnode w;
     componentInstance := componentInstance w; keepAlive := keepAlive w;
     destroyed_log := destroyed_log w |}.

Definition set_componentInstance (m : gmap nat Instance) (w : World) : World :=
  {| cache := cache w; keys := keys w; include := include w;
     exclude := exclude w; max := max w; _vnode := _vnode w;
     componentInstance := m; keepAlive := keepAlive w;
     destroyed_log := destroyed_log w |}.

Definition set_keepAlive (s : gset nat) (w : World) : World :=
  {| cache := cache w; keys := keys w; include := include w;
     exclude := exclude w; max := max w; _vnode := _vnode w;
     componentInstance := componentInstance w; keepAlive := s;
     destroyed_log := destroyed_log w |}.

Definition set_destroyed_log (l : list Instance) (w : World) : World :=
  {| cache := cache w; keys := keys w; include := include w;
     exclude := exclude w; max := max w; _vnode := _vnode w;
     componentInstance := componentInstance w; keepAlive := keepAlive w;
     destroyed_log := l |}.

(** *** Truthiness *)

Definition truthy_string (s : option string) : bool :=
  match s with
  | Some (String _ _) => true
  | _ => false
  end.

Definition truthy_pattern (p : Pattern) : bool :=
  match p with
  | PUndefined => false
  | PString s => truthy_string (Some s)
  | PRegExp _ | PArray _ => true
  end.

Definition truthy_max (m : MaxProp) : bool :=
  match m with
  | MaxUndefined => false
  | MaxString s => truthy_string (Some s)
  | MaxNumber z => negb (z =? 0)%Z
  end.

(** *** The cache object *)

(** [cache[k]]: [None] when there is no such property ([undefined]),
    [Some None] for [null]. *)
Fixpoint cache_get (c : list (string * option VNode)) (k : string) :
  option (option VNode) :=
  match c with
  | [] => None
  | (k', v) :: rest => if String.eqb k' k then Some v else cache_get rest k
  end.

(** The truthy value of [cache[k]], if any. *)
Definition cache_node (c : list (string * option VNode)) (k : string) :
  option VNode :=
  match cache_get c k with
  | Some (Some v) => Some v
  | _ => None
  end.

(** [cache[k] = v]: an existing property keeps its place, a new one is
    created last. *)
Fixpoint cache_put (c : list (string * option VNode)) (k : string)
  (v : option VNode) : list (string * option VNode) :=
  match c with
  | [] => [(k, v)]
  | (k', v') :: rest =>
      if String.eqb k' k then (k', v) :: rest
      else (k', v') :: cache_put rest k v
  end.

(** The names [for (const key in cache)] runs through. *)
Definition cache_keys (c : list (string * option VNode)) : list string :=
  JsLib.own_keys (map fst c).

(** ** Computations that may raise *)

Inductive Error :=
| TypeError
| DestroyError (i : nat).

Inductive Outcome (A : Type) :=
| Normal (a : A)
| Throw (e : Error).
Arguments Normal {A} a.
Arguments Throw {A} e.

(** A computation runs on the world; when it raises, the world is the one
    at the point of the [throw]: assignments made before it stay. *)
Definition Js (A : Type) : Type := World -> Outcome A * World.

Definition ret {A} (a : A) : Js A := fun w => (Normal a, w).

Definition bind {A B} (m : Js A) (f : A -> Js B) : Js B :=
  fun w =>
    match m w with
    | (Normal a, w') => f a w'
    | (Throw e, w') => (Throw e, w')
    end.

Definition get : Js World := fun w => (Normal w, w).
Definition modify (f : World -> World) : Js unit := fun w => (Normal tt, f w).
Definition throw {A} (e : Error) : Js A := fun w => (Throw e, w).

Declare Scope js_scope.
Delimit Scope js_scope with js.
Notation "x <- m ;; k" := (bind m (fun x => k))
  (at level 100, m at next level, right associativity) : js_scope.
Notation "m ;; k" := (bind m (fun _ => k))
  (at level 100, right associativity) : js_scope.
Local Open Scope js_scope.

(** [for (const key in ...) body] over the enumerated names. *)
Fixpoint for_in (names : list string) (body : string -> Js unit) : Js unit :=
  match names with
  | [] => ret tt
  | k :: rest => body k ;; for_in rest body
  end.

Definition when (b : bool) (m : Js unit) : Js unit :=
  if b then m else ret tt.

(** [inst.$destroy()]: the call is recorded in [destroyed_log], then it
    returns or raises. *)
Definition call_destroy (i : Instance) : Js unit :=
  modify (fun w => set_destroyed_log (destroyed_log w ++ [i]) w) ;;
  if destroy_raises i then throw (DestroyError (iid i)) else ret tt.

(** [vnode.componentInstance.$destroy()]; reading [$destroy] off an
    [undefined] instance is a TypeError. *)
Definition destroy_instance_of (v : VNode) : Js unit :=
  w <- get ;;
  match componentInstance w !! vid v with
  | Some i => call_destroy i
  | None => throw TypeError
  end.

(** ** The component *)

(** [getComponentName]: [opts && (opts.Ctor.options.name || opts.tag)]. *)
Definition getComponentName (opts : option ComponentOptions) : option string :=
  match opts with
  | None => None
  | Some o =>
      if truthy_string (Ctor_options_name o) then Ctor_options_name o
      else opts_tag o
  end.

Definition matches (pattern : Pattern) (name : string) : bool :=
  match pattern with
  | PArray names => JsLib.includes names name
  | PString s => JsLib.includes (JsLib.split_comma s) name
  | PRegExp test => test name
  | PUndefined => false
  end.

(** The test of [pruneCacheEntry]:
    [cached && (!current || cached.tag !== current.tag)]. *)
Definition must_destroy (cached : option VNode) (current : option VNode) : bool :=
  match cached with
  | None => false
  | Some c =>
      match current with
      | None => true
      | Some cur => negb (bool_decide (tag c = tag cur))
      end
  end.

Definition pruneCacheEntry (k : string) (current : option VNode) : Js unit :=
  w <- get ;;
  let cached := cache_node (cache w) k in
  when (must_destroy cached current)
       (match cached with
        | Some c => destroy_instance_of c
        | None => ret tt
        end) ;;
  modify (fun w => set_cache (cache_put (cache w) k None) w) ;;
  modify (fun w => set_keys (JsLib.remove (keys w) k) w).

Definition pruneCache (filter : string -> bool) : Js unit :=
  w <- get ;;
  let current := _vnode w in
  for_in (cache_keys (cache w)) (fun k =>
    w <- get ;;
    match cache_node (cache w) k with
    | Some cachedNode =>
        match getComponentName (componentOptions cachedNode) with
        | Some name =>
            when (truthy_string (Some name) && negb (filter name))
                 (pruneCacheEntry k current)
        | None => ret tt
        end
    | None => ret tt
    end).

(** [created]: an empty cache and an empty key list. *)
Definition created (inc exc : Pattern) (m : MaxProp) : World :=
  {| cache := []; keys := []; include := inc; exclude := exc; max := m;
     _vnode := None; componentInstance := ∅; keepAlive := ∅;
     destroyed_log := [] |}.

(** [destroyed]: every property of the cache is pruned, with no
    [current] argument. *)
Definition destroyed : Js unit :=
  w <- get ;;
  for_in (cache_keys (cache w)) (fun k => pruneCacheEntry k None).

(** The two watchers installed by [mounted]. *)
Definition watch_include (val : Pattern) : Js unit :=
  pruneCache (fun name => matches val name).

Definition watch_exclude (val : Pattern) : Js unit :=
  pruneCache (fun name => negb (matches val name)).

(** The filter test of [render]: true when the vnode is returned as it
    is, without touching the cache. *)
Definition not_cached (inc exc : Pattern) (name : option string) : bool :=
  (truthy_pattern inc &&
     (negb (truthy_string name) ||
      negb (matches inc (default "" name))))
  || (truthy_pattern exc && truthy_string name &&
      matches exc (default "" name)).

(** The cache key of [render]. *)
Definition cache_key (vnode : VNode) (opts : ComponentOptions) : string :=
  match key vnode with
  | None =>
      JsLib.number_to_string (Z.of_nat (Ctor_cid opts)) ++
      (if truthy_string (opts_tag opts)
       then "::" ++ default "" (opts_tag opts)
       else "")
  | Some k => k
  end.

(** [parseInt(this.max)]; a number is first converted to a string. *)
Definition parseInt (m : MaxProp) : option Z :=
  match m with
  | MaxUndefined => None
  | MaxString s => JsLib.parseInt_string s
  | MaxNumber z => JsLib.parseInt_string (JsLib.number_to_string z)
  end.

(** [this.max && keys.length > parseInt(this.max)] *)
Definition over_capacity (m : MaxProp) (ks : list string) : bool :=
  truthy_max m &&
  match parseInt m with
  | Some n => (n <? Z.of_nat (length ks))%Z
  | None => false
  end.

(** The part of [render] after the filter test: hit or miss. *)
Definition render_cached (vnode : VNode) (opts : ComponentOptions) : Js unit :=
  w <- get ;;
  let k := cache_key vnode opts in
  match cache_node (cache w) k with
  | Some cachedNode =>
      modify (fun w =>
        set_componentInstance
          (match componentInstance w !! vid cachedNode with
           | Some i => <[vid vnode := i]> (componentInstance w)
           | None => delete (vid vnode) (componentInstance w)
           end) w) ;;
      modify (fun w => set_keys (JsLib.remove (keys w) k) w) ;;
      modify (fun w => set_keys (keys w ++ [k]) w)
  | None =>
      modify (fun w => set_cache (cache_put (cache w) k (Some vnode)) w) ;;
      modify (fun w => set_keys (keys w ++ [k]) w) ;;
      w <- get ;;
      when (over_capacity (max w) (keys w))
           (pruneCacheEntry (default "undefined" (head (keys w))) (_vnode w))
  end ;;
  modify (fun w => set_keepAlive ({[vid vnode]} ∪ keepAlive w) w).

(** [render], given [getFirstComponentChild(slot)].  The value returned
    when there is no such child ([slot && slot[0]]) plays no part in the
    cache and is not modelled: the result is the vnode itself. *)
Definition render (vnode : option VNode) : Js (option VNode) :=
  match vnode with
  | Some v =>
      match componentOptions v with
      | Some opts =>
          w <- get ;;
          if not_cached (include w) (exclude w) (getComponentName (Some opts))
          then ret vnode
          else (render_cached v opts ;; ret vnode)
      | None => ret vnode
      end
  | None => ret vnode
  end.

(** ** The worlds the operations lead to *)

(** The two assignments that end [pruneCacheEntry]. *)
Definition evicted (k : string) (w : World) : World :=
  set_keys (JsLib.remove (keys w) k) (set_cache (cache_put (cache w) k None) w).

Definition logged (i : Instance) (w : World) : World :=
  set_destroyed_log (destroyed_log w ++ [i]) w.

(** The assignments of the miss branch before the capacity test. *)
Definition stored (k : string) (v : VNode) (w : World) : World :=
  set_keys (keys w ++ [k]) (set_cache (cache_put (cache w) k (Some v)) w).

Definition flagged (v : VNode) (w : World) : World :=
  set_keepAlive ({[vid v]} ∪ keepAlive w) w.

(** [keys] holds [k]. *)
Definition in_keys (k : string) (w : World) : Prop := k ∈ keys w.

(** The instance held by a cached vnode. *)
Definition held (w : World) (v : VNode) : option Instance :=
  componentInstance w !! vid v.

Definition set_include (p : Pattern) (w : World) : World :=
  {| cache := cache w; keys := keys w; include := p; exclude := exclude w;
     max := max w; _vnode := _vnode w;
     componentInstance := componentInstance w; keepAlive := keepAlive w;
     destroyed_log := destroyed_log w |}.

Definition set_exclude (p : Pattern) (w : World) : World :=
  {| cache := cache w; keys := keys w; include := include w; exclude := p;
     max := max w; _vnode := _vnode w;
     componentInstance := componentInstance w; keepAlive := keepAlive w;
     destroyed_log := destroyed_log w |}.

Definition set_max (m : MaxProp) (w : World) : World :=
  {| cache := cache w; keys := keys w; include := include w;
     exclude := exclude w; max := m; _vnode := _vnode w;
     componentInstance := componentInstance w; keepAlive := keepAlive w;
     destroyed_log := destroyed_log w |}.

Definition set_vnode (v : option VNode) (w : World) : World :=
  {| cache := cache w; keys := keys w; include := include w;
     exclude := exclude w; max := max w; _vnode := v;
     componentInstance := componentInstance w; keepAlive := keepAlive w;
     destroyed_log := destroyed_log w |}.

(** ** The host around the component *)

(** What the parent's render puts in the slot: a vnode yet to be
    allocated. *)
Record Descriptor := {
  d_key : option string;
  d_tag : option string;
  d_opts : option ComponentOptions
}.

Definition alloc (id : nat) (d : Descriptor) : VNode :=
  {| vid := id; key := d_key d; tag := d_tag d; componentOptions := d_opts d |}.

(** Modelled from the spec: the instantiation collaborator, which is not
    part of the source.  After a cycle the host gives the vnode the
    component returned a freshly constructed instance, unless the vnode
    already carries one (the instance taken over on a hit). *)
Definition instantiate (v : VNode) (i : Instance) (w : World) : World :=
  match componentOptions v, componentInstance w !! vid v with
  | Some _, None => set_componentInstance (<[vid v := i]> (componentInstance w)) w
  | _, _ => w
  end.

(** The host's state: the world and its allocation counters. *)
Record Host := {
  world : World;
  next_vid : nat;
  next_iid : nat
}.

Inductive HostOp :=
| Cycle (child : option Descriptor) (raises : bool)
| ChangeInclude (p : Pattern)
| ChangeExclude (p : Pattern)
| ChangeMax (m : MaxProp)
| SetCurrent (v : option VNode)
| Teardown.

(** Modelled from the spec: the rendering engine and the filter-change
    notifier, which are not part of the source.  One operation runs to
    completion before the next; a cycle hands the component a fresh vnode
    object, records the returned vnode as the currently rendered one
    ([_vnode]) and instantiates it; a prop change assigns the prop and
    runs its watcher; an error raised by an operation ends that operation
    and leaves the world as it is at that point.  [SetCurrent] lets
    [_vnode] take any value between operations. *)
Definition host_step (h : Host) (op : HostOp) : Host :=
  match op with
  | Cycle child raises =>
      let v := option_map (alloc (next_vid h)) child in
      match render v (world h) with
      | (Normal r, w') =>
          let w'' := set_vnode r w' in
          {| world := match r with
                      | Some x =>
                          instantiate x {| iid := next_iid h;
                                           destroy_raises := raises |} w''
                      | None => w''
                      end;
             next_vid := S (next_vid h);
             next_iid := S (next_iid h) |}
      | (Throw _, w') =>
          {| world := w'; next_vid := S (next_vid h); next_iid := next_iid h |}
      end
  | ChangeInclude p =>
      {| world := snd (watch_include p (set_include p (world h)));
         next_vid := next_vid h; next_iid := next_iid h |}
  | ChangeExclude p =>
      {| world := snd (watch_exclude p (set_exclude p (world h)));
         next_vid := next_vid h; next_iid := next_iid h |}
  | ChangeMax m =>
      {| world := set_max m (world h);
         next_vid := next_vid h; next_iid := next_iid h |}
  | SetCurrent v =>
      {| world := set_vnode v (world h);
         next_vid := next_vid h; next_iid := next_iid h |}
  | Teardown =>
      {| world := snd (destroyed (world h));
         next_vid := next_vid h; next_iid := next_iid h |}
  end.

Definition host_created (inc exc : Pattern) (m : MaxProp) : Host :=
  {| world := created inc exc m; next_vid := 0; next_iid := 0 |}.

Definition host_run (h : Host) (ops : list HostOp) : Host :=
  fold_left host_step ops h.

(** ** Concrete data for the scenarios *)

Definition component (name : string) : Descriptor :=
  {| d_key := Some name;
     d_tag := Some ("vue-component-" ++ name)%string;
     d_opts := Some {| Ctor_cid := 42; Ctor_options_name := Some name;
                       opts_tag := Some name |} |}.

Definition cycle (name : string) : HostOp := Cycle (Some (component name)) false.

(** The scenario of the specification: [max = 3], cycles A, B, C, A. *)
Definition scenario_start : Host :=
  host_created PUndefined PUndefined (MaxNumber 3).

Definition scenario_prefix : Host :=
  host_run scenario_start [cycle "A"; cycle "B"; cycle "C"; cycle "A"].

(** ** Invariants and reachable worlds *)

(** The bijection of the specification: [keys] has no duplicate and holds
    exactly the keys that [cache] maps to a vnode. *)
Definition ledger_matches_store (w : World) : Prop :=
  NoDup (keys w) /\
  forall k, k ∈ keys w <-> cache_node (cache w) k <> None.

(** The worlds the component can be in: it starts from [created]; a render
    cycle, a filter change and the teardown run in any order, each to its
    end or to the error it raises; in between the host may change the
    props, [_vnode] and the fields of the vnodes, but it has no access to
    [cache] and [keys]. *)
Inductive reachable : World -> Prop :=
| reach_created inc exc m :
    reachable (created inc exc m)
| reach_render v w o w' :
    reachable w -> render v w = (o, w') -> reachable w'
| reach_watch_include val w o w' :
    reachable w -> watch_include val w = (o, w') -> reachable w'
| reach_watch_exclude val w o w' :
    reachable w -> watch_exclude val w = (o, w') -> reachable w'
| reach_destroyed w o w' :
    reachable w -> destroyed w = (o, w') -> reachable w'
| reach_host w w' :
    reachable w -> cache w' = cache w -> keys w' = keys w -> reachable w'.

(** ** The filter of [render] in the words of the specification *)

(** The filter as the code applies it: a pattern counts as given when it
    is truthy, a name when it is a non-empty string. *)
Definition cacheable (inc exc : Pattern) (name : option string) : bool :=
  (negb (truthy_pattern inc) ||
   (truthy_string name && matches inc (default "" name))) &&
  negb (truthy_pattern exc && truthy_string name &&
        matches exc (default "" name)).

Definition is_set (p : Pattern) : bool :=
  match p with
  | PUndefined => false
  | _ => true
  end.

(** The filter as the specification words it: [include] absent, or the
    name present and matching it, and not ([exclude] present and the name
    present and matching it). *)
Definition cacheable_as_specified (inc exc : Pattern) (name : option string) :
  bool :=
  (negb (is_set inc) ||
   (truthy_string name && matches inc (default "" name))) &&
  negb (is_set exc && truthy_string name && matches exc (default "" name)).

(** The capacity the component enforces, if any: [max] must be truthy and
    [parseInt] must read a number off it. *)
Definition capacity (m : MaxProp) : option Z :=
  if truthy_max m then parseInt m else None.






(** ** A key whose entry is gone *)

(** The state in which an eviction or a prune leaves a key: its slot is
    still a property of [cache], holding [null], and the key is not in
    [keys]. *)
Definition dead (k : string) (w : World) : Prop :=
  cache_get (cache w) k = Some None /\ k ∉ keys w.

(** The cycle of [vnode] derives the key [k]. *)
Definition derives (vnode : option VNode) (k : string) : bool :=
  match vnode with
  | Some v =>
      match componentOptions v with
      | Some opts => String.eqb (cache_key v opts) k
      | None => false
      end
  | None => false
  end.

(** ** What a filter-change prune does, entry by entry *)

(** The test [pruneCache] applies to the entry of [k]: the entry is a
    vnode, its component has a non-empty name and the filter rejects the
    name. *)
Definition rejected (filter : string -> bool)
  (c : list (string * option VNode)) (k : string) : bool :=
  match cache_node c k with
  | Some cachedNode =>
      match getComponentName (componentOptions cachedNode) with
      | Some name => truthy_string (Some name) && negb (filter name)
      | None => false
      end
  | None => false
  end.

(** The instance that the prune of [k] destroys, if any: the entry is
    rejected and not exempted by the current vnode. *)
Definition victim (filter : string -> bool) (cur : option VNode)
  (c : list (string * option VNode)) (insts : gmap nat Instance)
  (k : string) : option Instance :=
  match cache_node c k with
  | Some cachedNode =>
      if rejected filter c k && must_destroy (Some cachedNode) cur
      then insts !! vid cachedNode
      else None
  | None => None
  end.

(** The cache object has each property once. *)
Definition well_formed (w : World) : Prop := NoDup (map fst (cache w)).

(** ** Instances and the destroy signal *)


(** Unfolds the worlds built by the operations down to their fields. *)
Ltac world_fields :=
  unfold held, stored, evicted, logged, flagged in *;
  cbn [cache keys componentInstance destroyed_log
       set_keys set_cache set_componentInstance set_keepAlive
       set_destroyed_log set_vnode] in *.

(** ** Further notions used by the properties of the component *)

(** The string has a comma. *)
Fixpoint has_comma (s : string) : bool :=
  match s with
  | EmptyString => false
  | String c rest => Ascii.eqb c ","%char || has_comma rest
  end.

(** [arr.join(',')] on an array of strings. *)
Fixpoint join_comma (arr : list string) : string :=
  match arr with
  | [] => EmptyString
  | [x] => x
  | x :: rest => (x ++ String ","%char (join_comma rest))%string
  end.

(** The instance held by the vnode cached under [k], if any. *)
Definition held_at (w : World) (k : string) : option Instance :=
  match cache_node (cache w) k with
  | Some c => held w c
  | None => None
  end.

(** The character is a decimal digit. *)
Definition is_digit (c : ascii) : bool :=
  let n := nat_of_ascii c in (48 <=? n)%nat && (n <=? 57)%nat.

Fixpoint all_digits (s : string) : bool :=
  match s with
  | EmptyString => true
  | String c rest => is_digit c && all_digits rest
  end.

(** The string is empty or starts with something else than a digit. *)
Definition no_leading_digit (s : string) : bool :=
  match s with
  | EmptyString => true
  | String c _ => negb (is_digit c)
  end.

(** What [render] appends to [Ctor.cid] when the vnode has no key. *)
Definition tag_suffix (opts : ComponentOptions) : string :=
  if truthy_string (opts_tag opts)
  then ("::" ++ default "" (opts_tag opts))%string
  else EmptyString.

(** ** Runs of the host that do not raise *)

Definition is_normal {A} (o : Outcome A) : bool :=
  match o with
  | Normal _ => true
  | Throw _ => false
  end.

(** The operation, carried out in the host state [h], returns normally. *)
Definition op_returns (h : Host) (op : HostOp) : bool :=
  match op with
  | Cycle child _ =>
      is_normal (fst (render (option_map (alloc (next_vid h)) child) (world h)))
  | ChangeInclude p =>
      is_normal (fst (watch_include p (set_include p (world h))))
  | ChangeExclude p =>
      is_normal (fst (watch_exclude p (set_exclude p (world h))))
  | Teardown => is_normal (fst (destroyed (world h)))
  | ChangeMax _ | SetCurrent _ => true
  end.

(** Every operation of the run returns normally. *)
Fixpoint run_returns (h : Host) (ops : list HostOp) : bool :=
  match ops with
  | [] => true
  | op :: rest => op_returns h op && run_returns (host_step h op) rest
  end.

(** [max] sets no bound or a bound of one key at least. *)
Definition usable_max (m : MaxProp) : bool :=
  match capacity m with
  | None => true
  | Some n => (1 <=? n)%Z
  end.

(** The operation gives the component nothing that raises and no
    capacity below one. *)
Definition well_behaved (op : HostOp) : bool :=
  match op with
  | Cycle _ raises => negb raises
  | ChangeMax m => usable_max m
  | _ => true
  end.

(** A world in which nothing can raise: every cached vnode has its
    instance and no [$destroy] raises. *)
Definition ready (w : World) : Prop :=
  ledger_matches_store w /\
  usable_max (max w) = true /\
  (forall k c, cache_node (cache w) k = Some c -> held w c <> None) /\
  (forall x i, componentInstance w !! x = Some i -> destroy_raises i = false).

(** ** The [LRUCache] class of the repository's notes

    The class keeps a JavaScript [Map], whose entries are enumerated in
    insertion order and whose keys are unique: a list of pairs, oldest
    first.  [_maxSize] is the number given to the constructor ([None]
    when it is left out, which makes every comparison with it false). *)
Module LRUCache.
Section Cache.
Context {K V : Type} `{EqDecision K}.

(** [map.has(key)] *)
Fixpoint map_has (m : list (K * V)) (key : K) : bool :=
  match m with
  | [] => false
  | (k, _) :: rest => bool_decide (k = key) || map_has rest key
  end.

(** [map.get(key)] *)
Fixpoint map_get (m : list (K * V)) (key : K) : option V :=
  match m with
  | [] => None
  | (k, v) :: rest => if decide (k = key) then Some v else map_get rest key
  end.

(** [map.delete(key)] *)
Fixpoint map_delete (m : list (K * V)) (key : K) : list (K * V) :=
  match m with
  | [] => []
  | (k, v) :: rest =>
      if decide (k = key) then rest else (k, v) :: map_delete rest key
  end.

(** [map.set(key, value)]: an existing key keeps its place, a new one is
    entered last. *)
Fixpoint map_set (m : list (K * V)) (key : K) (value : V) : list (K * V) :=
  match m with
  | [] => [(key, value)]
  | (k, v) :: rest =>
      if decide (k = key) then (k, value) :: rest
      else (k, v) :: map_set rest key value
  end.

Record t := {
  _map : list (K * V);
  _maxSize : option Z
}.

Definition constructor (maxSize : option Z) : t :=
  {| _map := []; _maxSize := maxSize |}.

(** [this._map.size > this._maxSize] *)
Definition too_big (m : list (K * V)) (maxSize : option Z) : bool :=
  match maxSize with
  | Some n => (n <? Z.of_nat (length m))%Z
  | None => false
  end.

(** [get(key)]: the value returned ([None] for [undefined]) and the
    cache afterwards.  Stored values are defined values, so a key the map
    has, has a value, and the last case does not arise. *)
Definition get (key : K) (c : t) : option V * t :=
  if negb (map_has (_map c) key) then (None, c)
  else
    match map_get (_map c) key with
    | Some value =>
        (Some value,
         {| _map := map_set (map_delete (_map c) key) key value;
            _maxSize := _maxSize c |})
    | None => (None, c)
    end.

(** [set(key, value)] *)
Definition set (key : K) (value : V) (c : t) : t :=
  let m1 := if map_has (_map c) key then map_delete (_map c) key else _map c in
  let m2 := map_set m1 key value in
  if too_big m2 (_maxSize c)
  then match m2 with
       | (oldestKey, _) :: _ =>
           {| _map := map_delete m2 oldestKey; _maxSize := _maxSize c |}
       | [] => {| _map := m2; _maxSize := _maxSize c |}
       end
  else {| _map := m2; _maxSize := _maxSize c |}.

(** The keys of the map, oldest first. *)
Definition keys_of (c : t) : list K := map fst (_map c).

(** The map has each key once. *)
Definition well_formed (c : t) : Prop := NoDup (keys_of c).

End Cache.
End LRUCache.

(** Settles a decidable goal on concrete data by evaluation. *)
Ltac decide_by_compute :=
  match goal with
  | |- ?P => apply (bool_decide_unpack P); vm_compute; exact I
  end.

(** * Properties *)

(** ** The built-ins *)

Example parseInt_examples :
  JsLib.parseInt_string "3" = Some 3%Z /\
  JsLib.parseInt_string "0" = Some 0%Z /\
  JsLib.parseInt_string "-1" = Some (-1)%Z /\
  JsLib.parseInt_string " 12px" = Some 12%Z /\
  JsLib.parseInt_string "0x1f" = Some 31%Z /\
  JsLib.parseInt_string "abc" = None /\
  JsLib.parseInt_string "" = None /\
  JsLib.parseInt_string (JsLib.number_to_string (-42)) = Some (-42)%Z.
Proof. vm_compute. repeat split. Qed.

Example own_keys_example :
  JsLib.own_keys ["b"; "10"; "a"; "9"; "01"] = ["9"; "10"; "b"; "a"; "01"].
Proof. vm_compute. reflexivity. Qed.

Example split_comma_examples :
  JsLib.split_comma "Foo,Bar" = ["Foo"; "Bar"] /\
  JsLib.split_comma "" = [""] /\
  JsLib.split_comma "a," = ["a"; ""].
Proof. vm_compute. repeat split. Qed.

Lemma digits_acc d : forall acc : positive,
  JsLib.digits 10 (Some (Zpos acc)) (NilEmpty.string_of_uint d)
  = Some (Zpos (Pos.of_uint_acc d acc)).
Proof.
  induction d as [|d IH|d IH|d IH|d IH|d IH|d IH|d IH|d IH|d IH|d IH];
    intros acc; [reflexivity|..];
    cbn [NilEmpty.string_of_uint JsLib.digits Pos.of_uint_acc];
    match goal with |- context [JsLib.digit_value ?c] =>
      let v := eval vm_compute in (JsLib.digit_value c) in
      change (JsLib.digit_value c) with v end;
    cbv iota beta;
    match goal with |- context [(?a <? 10)%Z] =>
      change (a <? 10)%Z with true end;
    cbv iota; cbn [default from_option id];
    match goal with |- JsLib.digits 10 (Some ?x) _ = Some (Zpos (Pos.of_uint_acc _ ?y)) =>
      replace x with (Zpos y) by lia end;
    apply IH.
Qed.

Lemma digits_zero d :
  JsLib.digits 10 (Some 0%Z) (NilEmpty.string_of_uint d)
  = Some (Z.of_N (Pos.of_uint d)).
Proof.
  induction d as [|d IH|d IH|d IH|d IH|d IH|d IH|d IH|d IH|d IH|d IH];
    [reflexivity|exact IH|..]; apply (digits_acc d).
Qed.

Lemma digits_none d :
  d <> Decimal.Nil ->
  JsLib.digits 10 None (NilEmpty.string_of_uint d)
  = Some (Z.of_N (Pos.of_uint d)).
Proof.
  intros Hd. destruct d; [congruence|apply (digits_zero d)|..];
    apply (digits_acc d).
Qed.

Lemma trim_start_decimal d :
  JsLib.trim_start (NilEmpty.string_of_uint d) = NilEmpty.string_of_uint d.
Proof. destruct d; reflexivity. Qed.

Lemma strip_sign_decimal d :
  JsLib.strip_sign (NilEmpty.string_of_uint d)
  = (1%Z, NilEmpty.string_of_uint d).
Proof. destruct d; reflexivity. Qed.

Lemma strip_hex_decimal d :
  JsLib.strip_hex (NilEmpty.string_of_uint d)
  = (10%Z, NilEmpty.string_of_uint d).
Proof. destruct d as [|d|d|d|d|d|d|d|d|d|d]; try reflexivity. destruct d; reflexivity. Qed.

Lemma parseInt_after_sign sign d :
  d <> Decimal.Nil ->
  (let '(radix, s2) := JsLib.strip_hex (NilEmpty.string_of_uint d) in
   match JsLib.digits radix None s2 with
   | Some n => Some (sign * n)%Z
   | None => None
   end) = Some (sign * Z.of_N (Pos.of_uint d))%Z.
Proof.
  intros Hd. rewrite strip_hex_decimal, (digits_none d Hd). reflexivity.
Qed.

Lemma to_uint_not_nil p : Pos.to_uint p <> Decimal.Nil.
Proof.
  intros H. pose proof (DecimalPos.Unsigned.of_to p) as E.
  rewrite H in E. discriminate.
Qed.

Lemma nilzero_string_of_uint d :
  d <> Decimal.Nil ->
  NilZero.string_of_uint d = NilEmpty.string_of_uint d.
Proof. destruct d; [congruence|reflexivity..]. Qed.

(** [parseInt] reads the decimal digits of an integer back. *)
Lemma parseInt_string_digits z :
  JsLib.parseInt_string (JsLib.number_to_string z) = Some z.
Proof.
  unfold JsLib.number_to_string.
  destruct z as [|p|p]; [reflexivity| |]; cbn [Z.to_int NilZero.string_of_int];
    pose proof (to_uint_not_nil p) as Hp;
    rewrite (nilzero_string_of_uint _ Hp); unfold JsLib.parseInt_string.
  - rewrite trim_start_decimal, strip_sign_decimal,
      (parseInt_after_sign 1 _ Hp), DecimalPos.Unsigned.of_to.
    reflexivity.
  - change (JsLib.trim_start (String "-" (NilEmpty.string_of_uint (Pos.to_uint p))))
      with (String "-" (NilEmpty.string_of_uint (Pos.to_uint p))).
    change (JsLib.strip_sign (String "-" (NilEmpty.string_of_uint (Pos.to_uint p))))
      with ((-1)%Z, NilEmpty.string_of_uint (Pos.to_uint p)).
    cbv iota beta.
    rewrite (parseInt_after_sign (-1) _ Hp), DecimalPos.Unsigned.of_to.
    reflexivity.
Qed.

Lemma insert_index_perm x l : JsLib.insert_index x l ≡ₚ x :: l.
Proof.
  induction l as [|y l IH]; simpl; [reflexivity|].
  destruct (fst x <=? fst y)%N; [reflexivity|].
  rewrite IH. apply perm_swap.
Qed.

Lemma sort_indices_perm l : JsLib.sort_indices l ≡ₚ l.
Proof.
  induction l as [|x l IH]; simpl; [reflexivity|].
  rewrite insert_index_perm. now rewrite IH.
Qed.

Lemma index_names_elem names n s :
  (n, s) ∈ JsLib.index_names names <->
  s ∈ names /\ JsLib.array_index s = Some n.
Proof.
  induction names as [|x names IH]; simpl.
  - split; [intros H; inversion H|intros [H _]; inversion H].
  - destruct (JsLib.array_index x) as [m|] eqn:E;
      rewrite ?elem_of_cons, IH, ?elem_of_cons; split.
    + intros [[= -> ->]|[H1 H2]]; auto.
    + intros [[->|H1] H2]; [left; congruence|auto].
    + intros [H1 H2]; auto.
    + intros [[->|H1] H2]; [congruence|auto].
Qed.

Lemma plain_names_elem names s :
  s ∈ JsLib.plain_names names <->
  s ∈ names /\ JsLib.array_index s = None.
Proof.
  induction names as [|x names IH]; simpl.
  - split; [intros H; inversion H|intros [H _]; inversion H].
  - destruct (JsLib.array_index x) as [m|] eqn:E;
      rewrite ?elem_of_cons, IH, ?elem_of_cons; split.
    + intros [H1 H2]; auto.
    + intros [[->|H1] H2]; [congruence|auto].
    + intros [->|[H1 H2]]; auto.
    + intros [[->|H1] H2]; auto.
Qed.

Lemma index_part_elem names s :
  s ∈ map snd (JsLib.sort_indices (JsLib.index_names names)) <->
  s ∈ names /\ JsLib.array_index s <> None.
Proof.
  rewrite sort_indices_perm. change (map snd) with (fmap (M := list) (@snd N string)).
  rewrite list_elem_of_fmap. split.
  - intros [[n s'] [-> H]]. apply index_names_elem in H. cbn.
    destruct H as [H1 H2]. split; [exact H1|congruence].
  - intros [H1 H2]. destruct (JsLib.array_index s) as [n|] eqn:E; [|congruence].
    exists (n, s). split; [reflexivity|]. now apply index_names_elem.
Qed.

(** Every property is visited, and no other name. *)
Lemma own_keys_elem names s : s ∈ JsLib.own_keys names <-> s ∈ names.
Proof.
  unfold JsLib.own_keys. rewrite elem_of_app, index_part_elem, plain_names_elem.
  destruct (JsLib.array_index s); split; try tauto.
  intros H. left. split; [exact H|congruence].
Qed.

Lemma index_names_NoDup names :
  NoDup names -> NoDup (map snd (JsLib.index_names names)).
Proof.
  induction 1 as [|x names Hx Hnd IH]; simpl; [constructor|].
  destruct (JsLib.array_index x) as [n|] eqn:E; [|exact IH].
  simpl. constructor; [|exact IH].
  change (map snd) with (fmap (M := list) (@snd N string)).
  rewrite list_elem_of_fmap. intros [[m s] [Hs H]]. cbn in Hs. subst s.
  apply index_names_elem in H. tauto.
Qed.

Lemma plain_names_NoDup names :
  NoDup names -> NoDup (JsLib.plain_names names).
Proof.
  induction 1 as [|x names Hx Hnd IH]; simpl; [constructor|].
  destruct (JsLib.array_index x) as [n|] eqn:E; [exact IH|].
  constructor; [|exact IH]. rewrite plain_names_elem. tauto.
Qed.

(** Every property is visited once. *)
Lemma own_keys_NoDup names : NoDup names -> NoDup (JsLib.own_keys names).
Proof.
  intros Hnd. unfold JsLib.own_keys. apply NoDup_app. split; [|split].
  - assert (Hp : map snd (JsLib.sort_indices (JsLib.index_names names))
                 ≡ₚ map snd (JsLib.index_names names)).
    { apply Permutation_map, sort_indices_perm. }
    rewrite Hp. now apply index_names_NoDup.
  - intros s H1 H2. apply index_part_elem in H1. apply plain_names_elem in H2.
    destruct H1 as [_ H1], H2 as [_ H2]. congruence.
  - now apply plain_names_NoDup.
Qed.

Lemma remove_In arr item x :
  x ∈ JsLib.remove arr item -> x ∈ arr.
Proof.
  induction arr as [|y arr IH]; simpl; [tauto|].
  destruct (String.eqb y item); rewrite ?elem_of_cons; tauto.
Qed.

Lemma remove_In_ne arr item x :
  x <> item -> x ∈ arr -> x ∈ JsLib.remove arr item.
Proof.
  intros Hne. induction arr as [|y arr IH]; simpl; [tauto|].
  destruct (String.eqb y item) eqn:E; rewrite ?elem_of_cons.
  - apply String.eqb_eq in E. subst y. intros [->|H]; [contradiction|exact H].
  - intros [->|H]; auto.
Qed.

Lemma remove_NoDup arr item : NoDup arr -> NoDup (JsLib.remove arr item).
Proof.
  induction 1 as [|y arr Hy Hnd IH]; simpl; [constructor|].
  destruct (String.eqb y item); [exact Hnd|].
  constructor; [|exact IH]. intros Hin. apply Hy. eapply remove_In, Hin.
Qed.

Lemma remove_not_In arr item :
  NoDup arr -> item ∉ JsLib.remove arr item.
Proof.
  induction 1 as [|y arr Hy Hnd IH]; simpl; [apply not_elem_of_nil|].
  destruct (String.eqb y item) eqn:E.
  - apply String.eqb_eq in E. now subst y.
  - rewrite elem_of_cons. intros [->|H]; [|tauto].
    rewrite String.eqb_refl in E. discriminate.
Qed.

Lemma remove_absent arr item : item ∉ arr -> JsLib.remove arr item = arr.
Proof.
  induction arr as [|y arr IH]; simpl; [reflexivity|].
  rewrite elem_of_cons. intros H. destruct (String.eqb y item) eqn:E.
  - apply String.eqb_eq in E. subst y. tauto.
  - f_equal. tauto.
Qed.


Lemma remove_length_le arr item :
  length (JsLib.remove arr item) <= length arr.
Proof.
  induction arr as [|y arr IH]; simpl; [lia|].
  destruct (String.eqb y item); simpl; lia.
Qed.

Lemma remove_head_app l k0 k :
  head (l ++ [k]) = Some k0 -> l <> [] ->
  JsLib.remove (l ++ [k]) k0 = tail l ++ [k].
Proof.
  destruct l as [|x l]; [congruence|]. simpl. intros [= ->] _.
  now rewrite String.eqb_refl.
Qed.


Lemma omap_ext_in {A B} (f g : A -> option B) (l : list A) :
  (forall x, x ∈ l -> f x = g x) -> omap f l = omap g l.
Proof.
  induction l as [|x l IH]; intros H; [reflexivity|].
  assert (IH' : omap f l = omap g l).
  { apply IH. intros y Hy. apply H. now apply list_elem_of_further. }
  cbn. rewrite (H x) by apply list_elem_of_here.
  destruct (g x); [f_equal|]; exact IH'.
Qed.


(** ** The cache object *)

Lemma cache_get_put_eq c k v : cache_get (cache_put c k v) k = Some v.
Proof.
  induction c as [|[k' v'] c IH]; simpl.
  - now rewrite String.eqb_refl.
  - destruct (String.eqb k' k) eqn:E; simpl; rewrite E; auto.
Qed.

Lemma cache_get_put_ne c k k' v :
  k <> k' -> cache_get (cache_put c k v) k' = cache_get c k'.
Proof.
  intros Hne. induction c as [|[k0 v0] c IH]; simpl.
  - destruct (String.eqb k k') eqn:E; [|reflexivity].
    apply String.eqb_eq in E. contradiction.
  - destruct (String.eqb k0 k) eqn:E; simpl.
    + apply String.eqb_eq in E. subst k0.
      destruct (String.eqb k k') eqn:E'; [|reflexivity].
      apply String.eqb_eq in E'. contradiction.
    + destruct (String.eqb k0 k'); auto.
Qed.

Lemma cache_node_put_eq c k v : cache_node (cache_put c k v) k = v.
Proof. unfold cache_node. rewrite cache_get_put_eq. now destruct v. Qed.

Lemma cache_node_put_ne c k k' v :
  k <> k' -> cache_node (cache_put c k v) k' = cache_node c k'.
Proof. intros H. unfold cache_node. now rewrite cache_get_put_ne. Qed.

Lemma cache_node_put_None c k k' v :
  cache_node (cache_put c k None) k' = Some v ->
  k' <> k /\ cache_node c k' = Some v.
Proof.
  destruct (decide (k = k')) as [<-|Hne].
  - rewrite cache_node_put_eq. discriminate.
  - rewrite cache_node_put_ne by exact Hne. auto.
Qed.

Lemma cache_node_put_Some c k v k' v' :
  cache_node (cache_put c k (Some v)) k' = Some v' ->
  (k' = k /\ v' = v) \/ (k' <> k /\ cache_node c k' = Some v').
Proof.
  destruct (decide (k = k')) as [<-|Hne].
  - rewrite cache_node_put_eq. intros [= <-]. auto.
  - rewrite cache_node_put_ne by exact Hne. auto.
Qed.

Lemma cache_put_names c k v :
  map fst (cache_put c k v) =
  if bool_decide (k ∈ map fst c) then map fst c else map fst c ++ [k].
Proof.
  induction c as [|[k' v'] c IH]; simpl; [reflexivity|].
  destruct (String.eqb_spec k' k) as [->|Hne]; simpl.
  - rewrite bool_decide_eq_true_2 by apply list_elem_of_here. reflexivity.
  - rewrite IH. destruct (bool_decide (k ∈ map fst c)) eqn:E.
    + apply bool_decide_eq_true in E.
      rewrite bool_decide_eq_true_2 by (now apply list_elem_of_further).
      reflexivity.
    + apply bool_decide_eq_false in E.
      rewrite bool_decide_eq_false_2; [reflexivity|].
      rewrite elem_of_cons. intros [->|H]; [congruence|contradiction].
Qed.

Lemma cache_put_well_formed c k v :
  NoDup (map fst c) -> NoDup (map fst (cache_put c k v)).
Proof.
  intros Hnd. rewrite cache_put_names.
  destruct (bool_decide (k ∈ map fst c)) eqn:E; [exact Hnd|].
  apply bool_decide_eq_false in E. apply NoDup_app. split; [exact Hnd|].
  split; [|apply NoDup_singleton].
  intros x Hx Hx'. apply list_elem_of_singleton in Hx'. now subst x.
Qed.

Lemma cache_get_names c k : cache_get c k <> None <-> k ∈ map fst c.
Proof.
  induction c as [|[k' v'] c IH]; simpl.
  - split; [congruence|intros H; inversion H].
  - rewrite elem_of_cons. destruct (String.eqb_spec k' k) as [->|Hne].
    + split; [auto|congruence].
    + rewrite IH. split; [auto|intros [->|H]; [congruence|exact H]].
Qed.


(** ** The operations as equations *)

Lemma pruneCacheEntry_eq k cur w :
  pruneCacheEntry k cur w =
  match cache_node (cache w) k with
  | Some c =>
      if must_destroy (Some c) cur then
        match held w c with
        | Some i =>
            if destroy_raises i
            then (Throw (DestroyError (iid i)), logged i w)
            else (Normal tt, evicted k (logged i w))
        | None => (Throw TypeError, w)
        end
      else (Normal tt, evicted k w)
  | None => (Normal tt, evicted k w)
  end.
Proof.
  unfold pruneCacheEntry, bind, get, when, destroy_instance_of, held.
  destruct (cache_node (cache w) k) as [c|] eqn:Hc; [|reflexivity].
  destruct (must_destroy (Some c) cur); [|reflexivity].
  unfold bind, get.
  destruct (componentInstance w !! vid c) as [i|]; [|reflexivity].
  unfold call_destroy, bind, modify.
  destruct (destroy_raises i); reflexivity.
Qed.

Lemma pruneCacheEntry_outcome k cur w :
  match pruneCacheEntry k cur w with
  | (Throw _, w') =>
      cache w' = cache w /\ keys w' = keys w /\
      cache_node (cache w') k <> None
  | (Normal _, w') =>
      cache w' = cache_put (cache w) k None /\
      keys w' = JsLib.remove (keys w) k /\
      cache_node (cache w') k = None
  end.
Proof.
  rewrite pruneCacheEntry_eq.
  destruct (cache_node (cache w) k) as [c|] eqn:Hc.
  - destruct (must_destroy (Some c) cur).
    + destruct (held w c) as [i|].
      * destruct (destroy_raises i); cbn.
        -- rewrite Hc. repeat split; congruence.
        -- repeat split. apply cache_node_put_eq.
      * rewrite Hc. repeat split; congruence.
    + cbn. repeat split. apply cache_node_put_eq.
  - cbn. repeat split. apply cache_node_put_eq.
Qed.

(** What a call of [pruneCacheEntry] that returns has done. *)
Lemma pruneCacheEntry_normal k cur w w' :
  pruneCacheEntry k cur w = (Normal tt, w') ->
  cache w' = cache_put (cache w) k None /\
  keys w' = JsLib.remove (keys w) k /\
  componentInstance w' = componentInstance w /\
  destroyed_log w' =
    destroyed_log w ++
    match cache_node (cache w) k with
    | Some c => if must_destroy (Some c) cur
                then option_list (held w c) else []
    | None => []
    end.
Proof.
  rewrite pruneCacheEntry_eq.
  destruct (cache_node (cache w) k) as [c|].
  - destruct (must_destroy (Some c) cur).
    + destruct (held w c) as [i|]; [|discriminate].
      destruct (destroy_raises i); [discriminate|].
      intros [= <-]. repeat split.
    + intros [= <-]. cbn. rewrite app_nil_r. repeat split.
  - intros [= <-]. cbn. rewrite app_nil_r. repeat split.
Qed.

Lemma pruneCacheEntry_max k cur w o w' :
  pruneCacheEntry k cur w = (o, w') -> max w' = max w.
Proof.
  rewrite pruneCacheEntry_eq.
  destruct (cache_node (cache w) k) as [c|];
    [destruct (must_destroy (Some c) cur);
     [destruct (held w c) as [i|]; [destruct (destroy_raises i)|]|]|];
    intros [= <- <-]; reflexivity.
Qed.

Lemma render_cached_hit v opts w c :
  cache_node (cache w) (cache_key v opts) = Some c ->
  render_cached v opts w =
  (Normal tt,
   flagged v
     (set_keys (JsLib.remove (keys w) (cache_key v opts) ++ [cache_key v opts])
        (set_componentInstance
           (match held w c with
            | Some i => <[vid v := i]> (componentInstance w)
            | None => delete (vid v) (componentInstance w)
            end) w))).
Proof.
  intros Hc. unfold render_cached, bind, get. rewrite Hc. reflexivity.
Qed.

Lemma render_cached_miss v opts w :
  cache_node (cache w) (cache_key v opts) = None ->
  render_cached v opts w =
  let w1 := stored (cache_key v opts) v w in
  if over_capacity (max w) (keys w1) then
    match pruneCacheEntry (default "undefined" (head (keys w1))) (_vnode w) w1 with
    | (Normal _, w2) => (Normal tt, flagged v w2)
    | (Throw e, w2) => (Throw e, w2)
    end
  else (Normal tt, flagged v w1).
Proof.
  intros Hc. unfold render_cached, bind, get. rewrite Hc.
  unfold modify, when, stored. cbn [max keys set_keys set_cache _vnode].
  destruct (over_capacity _ _); [|reflexivity].
  match goal with |- context [pruneCacheEntry ?k ?c ?w] =>
    destruct (pruneCacheEntry k c w) as [[[]|e] w2] end; reflexivity.
Qed.

Lemma render_eq v w :
  render v w =
  match v with
  | Some x =>
      match componentOptions x with
      | Some opts =>
          if not_cached (include w) (exclude w) (getComponentName (Some opts))
          then (Normal v, w)
          else match render_cached x opts w with
               | (Normal _, w') => (Normal v, w')
               | (Throw e, w') => (Throw e, w')
               end
      | None => (Normal v, w)
      end
  | None => (Normal v, w)
  end.
Proof.
  destruct v as [x|]; [|reflexivity]. unfold render.
  destruct (componentOptions x) as [opts|]; [|reflexivity].
  unfold bind, get.
  destruct (not_cached _ _ _); [reflexivity|].
  destruct (render_cached x opts w) as [[[]|e] w']; reflexivity.
Qed.

(** A cycle that passes the filter and finds no vnode under its key. *)
Lemma render_miss v opts w :
  componentOptions v = Some opts ->
  not_cached (include w) (exclude w) (getComponentName (Some opts)) = false ->
  cache_node (cache w) (cache_key v opts) = None ->
  render (Some v) w =
  let w1 := stored (cache_key v opts) v w in
  if over_capacity (max w) (keys w1) then
    match pruneCacheEntry (default "undefined" (head (keys w1))) (_vnode w) w1 with
    | (Normal _, w2) => (Normal (Some v), flagged v w2)
    | (Throw e, w2) => (Throw e, w2)
    end
  else (Normal (Some v), flagged v w1).
Proof.
  intros Hco Hnc Hmiss.
  rewrite render_eq, Hco, Hnc, (render_cached_miss _ _ _ Hmiss). cbv zeta.
  destruct (over_capacity _ _); [|reflexivity].
  destruct (pruneCacheEntry _ _ _) as [[[]|e] w2]; reflexivity.
Qed.

(** A miss that goes over capacity while the oldest entry is not exempt
    and its [$destroy] returns: the entry is destroyed and removed. *)
Lemma render_miss_evicts v opts w k0 c i :
  componentOptions v = Some opts ->
  not_cached (include w) (exclude w) (getComponentName (Some opts)) = false ->
  cache_node (cache w) (cache_key v opts) = None ->
  over_capacity (max w) (keys w ++ [cache_key v opts]) = true ->
  head (keys w ++ [cache_key v opts]) = Some k0 ->
  cache_node (cache (stored (cache_key v opts) v w)) k0 = Some c ->
  must_destroy (Some c) (_vnode w) = true ->
  held w c = Some i ->
  destroy_raises i = false ->
  render (Some v) w =
  (Normal (Some v),
   flagged v (evicted k0 (logged i (stored (cache_key v opts) v w)))).
Proof.
  intros Hco Hnc Hmiss Hover Hhd Hc Hmd Hi Hr.
  rewrite render_eq, Hco, Hnc, (render_cached_miss _ _ _ Hmiss).
  cbv zeta.
  change (keys (stored (cache_key v opts) v w))
    with (keys w ++ [cache_key v opts]).
  rewrite Hover, Hhd.
  change (default "undefined" (Some k0)) with k0.
  rewrite pruneCacheEntry_eq, Hc, Hmd.
  change (held (stored (cache_key v opts) v w) c) with (held w c).
  rewrite Hi, Hr. reflexivity.
Qed.

Lemma for_in_preserves (P : World -> Prop) body names :
  (forall k w o w', P w -> body k w = (o, w') -> P w') ->
  forall w o w', P w -> for_in names body w = (o, w') -> P w'.
Proof.
  intros Hbody. induction names as [|k names IH]; simpl; intros w o w' HP.
  - unfold ret. intros [= <- <-]. exact HP.
  - unfold bind. destruct (body k w) as [[[]|e] w1] eqn:Hb.
    + intros H. eapply IH; [|exact H]. eapply Hbody; eauto.
    + intros [= <- <-]. eapply Hbody; eauto.
Qed.

Lemma for_in_ext f g :
  (forall k w, f k w = g k w) ->
  forall ks w, for_in ks f w = for_in ks g w.
Proof.
  intros Hfg. induction ks as [|k ks IH]; intros w; simpl; [reflexivity|].
  unfold bind. rewrite Hfg. destruct (g k w) as [[[]|e] w1]; auto.
Qed.

(** [pruneCache] prunes the rejected entries, in enumeration order. *)
Lemma pruneCache_eq filter w :
  pruneCache filter w =
  for_in (cache_keys (cache w))
    (fun k w1 => if rejected filter (cache w1) k
                 then pruneCacheEntry k (_vnode w) w1
                 else (Normal tt, w1)) w.
Proof.
  unfold pruneCache, bind at 1, get at 1. apply for_in_ext.
  intros k w1. unfold bind, get, rejected.
  destruct (cache_node (cache w1) k) as [c|]; [|reflexivity].
  destruct (getComponentName (componentOptions c)) as [name|]; [|reflexivity].
  unfold when. destruct (_ && _); reflexivity.
Qed.

Lemma instantiate_cache v i w : cache (instantiate v i w) = cache w.
Proof.
  unfold instantiate.
  destruct (componentOptions v), (componentInstance w !! vid v); reflexivity.
Qed.

Lemma instantiate_keys v i w : keys (instantiate v i w) = keys w.
Proof.
  unfold instantiate.
  destruct (componentOptions v), (componentInstance w !! vid v); reflexivity.
Qed.


(** [parseInt] gives a safe integer back. *)
Lemma parseInt_number z `{!JsLib.SafeInteger z} :
  parseInt (MaxNumber z) = Some z.
Proof. apply parseInt_string_digits. Qed.

Lemma over_capacity_capacity m ks :
  over_capacity m ks =
  match capacity m with
  | Some n => (n <? Z.of_nat (length ks))%Z
  | None => false
  end.
Proof.
  unfold over_capacity, capacity. destruct (truthy_max m); reflexivity.
Qed.

Lemma capacity_number z `{!JsLib.SafeInteger z} :
  z <> 0%Z -> capacity (MaxNumber z) = Some z.
Proof.
  intros Hz. unfold capacity. cbn [truthy_max].
  destruct (Z.eqb_spec z 0); [contradiction|]. apply parseInt_number.
Qed.

(** A first run, to see the pieces at work: three cycles with [max = 2].
    The third evicts ["A"], whose instance (the first one made) is
    destroyed. *)
Example three_cycles :
  let h := host_run (host_created PUndefined PUndefined (MaxNumber 2))
                    [Cycle (Some (component "A")) false;
                     Cycle (Some (component "B")) false;
                     Cycle (Some (component "C")) false] in
  keys (world h) = ["B"; "C"] /\
  cache_node (cache (world h)) "A" = None /\
  cache_node (cache (world h)) "B" = Some (alloc 1 (component "B")) /\
  destroyed_log (world h) = [ {| iid := 0; destroy_raises := false |} ].
Proof. vm_compute. repeat split. Qed.


(** ** Invariants of the reachable worlds *)

Lemma ledger_matches_store_ext w w' :
  cache w' = cache w -> keys w' = keys w ->
  ledger_matches_store w -> ledger_matches_store w'.
Proof. unfold ledger_matches_store. intros -> ->. tauto. Qed.

Lemma evicted_matches k w :
  ledger_matches_store w -> ledger_matches_store (evicted k w).
Proof.
  intros [Hnd Hiff]. split; cbn.
  - now apply remove_NoDup.
  - intros k'. destruct (decide (k = k')) as [<-|Hne].
    + rewrite cache_node_put_eq. split; [|congruence].
      intros H. now apply remove_not_In in H.
    + rewrite cache_node_put_ne by exact Hne. rewrite <- Hiff. split.
      * apply remove_In.
      * apply remove_In_ne. congruence.
Qed.

Lemma pruneCacheEntry_matches k cur w o w' :
  ledger_matches_store w -> pruneCacheEntry k cur w = (o, w') ->
  ledger_matches_store w'.
Proof.
  intros Hinv. rewrite pruneCacheEntry_eq.
  destruct (cache_node (cache w) k) as [c|].
  - destruct (must_destroy (Some c) cur).
    + destruct (held w c) as [i|].
      * destruct (destroy_raises i); intros [= <- <-].
        -- eapply ledger_matches_store_ext; [| |exact Hinv]; reflexivity.
        -- apply evicted_matches.
           eapply ledger_matches_store_ext; [| |exact Hinv]; reflexivity.
      * intros [= <- <-]. exact Hinv.
    + intros [= <- <-]. now apply evicted_matches.
  - intros [= <- <-]. now apply evicted_matches.
Qed.

Lemma pruneCache_matches filter w o w' :
  ledger_matches_store w -> pruneCache filter w = (o, w') ->
  ledger_matches_store w'.
Proof.
  unfold pruneCache, bind, get. intros Hinv.
  apply for_in_preserves; [|exact Hinv].
  clear Hinv. intros k w1 o1 w1' Hinv. unfold bind, get.
  destruct (cache_node (cache w1) k) as [c|]; [|intros [= <- <-]; exact Hinv].
  destruct (getComponentName (componentOptions c)) as [name|];
    [|intros [= <- <-]; exact Hinv].
  unfold when. destruct (_ && _); [|intros [= <- <-]; exact Hinv].
  now apply pruneCacheEntry_matches.
Qed.

Lemma destroyed_matches w o w' :
  ledger_matches_store w -> destroyed w = (o, w') ->
  ledger_matches_store w'.
Proof.
  unfold destroyed, bind, get. intros Hinv.
  apply for_in_preserves; [|exact Hinv].
  intros k w1 o1 w1'. apply pruneCacheEntry_matches.
Qed.

Lemma stored_matches k v w :
  cache_node (cache w) k = None ->
  ledger_matches_store w -> ledger_matches_store (stored k v w).
Proof.
  intros Hmiss [Hnd Hiff]. split; cbn.
  - apply NoDup_app. split; [exact Hnd|]. split.
    + intros x Hx Hx'. apply list_elem_of_singleton in Hx'. subst x.
      apply Hiff in Hx. contradiction.
    + apply NoDup_singleton.
  - intros k'. rewrite elem_of_app, list_elem_of_singleton.
    destruct (decide (k = k')) as [<-|Hne].
    + rewrite cache_node_put_eq. split; [congruence|auto].
    + rewrite cache_node_put_ne by exact Hne. rewrite Hiff.
      split; [intros [H|H]; congruence|auto].
Qed.

Lemma render_cached_matches v opts w o w' :
  ledger_matches_store w -> render_cached v opts w = (o, w') ->
  ledger_matches_store w'.
Proof.
  intros Hinv.
  destruct (cache_node (cache w) (cache_key v opts)) as [c|] eqn:Hc.
  - rewrite (render_cached_hit _ _ _ _ Hc). intros [= <- <-].
    destruct Hinv as [Hnd Hiff]. split; cbn.
    + apply NoDup_app. split; [now apply remove_NoDup|]. split.
      * intros x Hx Hx'. apply list_elem_of_singleton in Hx'. subst x.
        now apply remove_not_In in Hx.
      * apply NoDup_singleton.
    + intros k'. rewrite elem_of_app, list_elem_of_singleton, <- Hiff.
      split.
      * intros [H| ->]; [eapply remove_In, H|]. apply Hiff. congruence.
      * intros H. destruct (decide (k' = cache_key v opts)); [auto|].
        left. now apply remove_In_ne.
  - rewrite (render_cached_miss _ _ _ Hc). cbv zeta.
    pose proof (stored_matches _ v _ Hc Hinv) as Hst.
    destruct (over_capacity _ _).
    + destruct (pruneCacheEntry _ _ _) as [[[]|e] w2] eqn:Hp;
        intros [= <- <-];
        pose proof (pruneCacheEntry_matches _ _ _ _ _ Hst Hp) as H2.
      * eapply ledger_matches_store_ext; [| |exact H2]; reflexivity.
      * exact H2.
    + intros [= <- <-].
      eapply ledger_matches_store_ext; [| |exact Hst]; reflexivity.
Qed.

Lemma render_matches v w o w' :
  ledger_matches_store w -> render v w = (o, w') ->
  ledger_matches_store w'.
Proof.
  intros Hinv. rewrite render_eq.
  destruct v as [x|]; [|intros [= <- <-]; exact Hinv].
  destruct (componentOptions x) as [opts|]; [|intros [= <- <-]; exact Hinv].
  destruct (not_cached _ _ _); [intros [= <- <-]; exact Hinv|].
  destruct (render_cached x opts w) as [[[]|e] w1] eqn:Hr;
    intros [= <- <-]; eapply render_cached_matches; eauto.
Qed.

Section CacheProperty.

(** A property of the cache object that assignments keep. *)
Variable P : list (string * option VNode) -> Prop.

Hypothesis P_put : forall c k v, P c -> P (cache_put c k v).

Lemma pruneCacheEntry_cache_property k cur w o w' :
  P (cache w) -> pruneCacheEntry k cur w = (o, w') -> P (cache w').
Proof.
  intros HP Hp. pose proof (pruneCacheEntry_outcome k cur w) as Ho.
  rewrite Hp in Ho. destruct o; destruct Ho as (-> & _); auto.
Qed.

Lemma pruneCache_cache_property filter w o w' :
  P (cache w) -> pruneCache filter w = (o, w') -> P (cache w').
Proof.
  unfold pruneCache, bind, get. intros HP.
  apply (for_in_preserves (fun w => P (cache w))); [|exact HP].
  clear HP. intros k w1 o1 w1' HP. unfold bind, get.
  destruct (cache_node (cache w1) k) as [c|]; [|intros [= <- <-]; exact HP].
  destruct (getComponentName (componentOptions c)) as [name|];
    [|intros [= <- <-]; exact HP].
  unfold when. destruct (_ && _); [|intros [= <- <-]; exact HP].
  now apply pruneCacheEntry_cache_property.
Qed.

Lemma destroyed_cache_property w o w' :
  P (cache w) -> destroyed w = (o, w') -> P (cache w').
Proof.
  unfold destroyed, bind, get. intros HP.
  apply (for_in_preserves (fun w => P (cache w))); [|exact HP].
  intros k w1 o1 w1'. apply pruneCacheEntry_cache_property.
Qed.

Lemma render_cache_property v w o w' :
  P (cache w) -> render v w = (o, w') -> P (cache w').
Proof.
  intros HP. rewrite render_eq.
  destruct v as [x|]; [|intros [= <- <-]; exact HP].
  destruct (componentOptions x) as [opts|]; [|intros [= <- <-]; exact HP].
  destruct (not_cached _ _ _); [intros [= <- <-]; exact HP|].
  assert (Hrc : forall o1 w1, render_cached x opts w = (o1, w1) -> P (cache w1)).
  { intros o1 w1.
    destruct (cache_node (cache w) (cache_key x opts)) as [c|] eqn:Hc.
    - rewrite (render_cached_hit _ _ _ _ Hc). intros [= <- <-]. exact HP.
    - rewrite (render_cached_miss _ _ _ Hc). cbv zeta.
      assert (Hst : P (cache (stored (cache_key x opts) x w)))
        by (apply P_put, HP).
      destruct (over_capacity _ _); [|intros [= <- <-]; exact Hst].
      destruct (pruneCacheEntry _ _ _) as [[[]|e] w2] eqn:Hp;
        intros [= <- <-];
        apply (pruneCacheEntry_cache_property _ _ _ _ _ Hst Hp). }
  destruct (render_cached x opts w) as [[[]|e] w1] eqn:Hr;
    intros [= <- <-]; eapply Hrc; eauto.
Qed.

Lemma reachable_cache_property w : P [] -> reachable w -> P (cache w).
Proof.
  intros Hnil. induction 1 as [inc exc m | v w0 o w' _ IH Hr
    | val w0 o w' _ IH Hr | val w0 o w' _ IH Hr | w0 o w' _ IH Hr
    | w0 w' _ IH Hc Hk].
  - exact Hnil.
  - eapply render_cache_property; eauto.
  - eapply pruneCache_cache_property; eauto.
  - eapply pruneCache_cache_property; eauto.
  - eapply destroyed_cache_property; eauto.
  - now rewrite Hc.
Qed.

End CacheProperty.

Lemma reachable_well_formed w : reachable w -> well_formed w.
Proof.
  apply (reachable_cache_property (fun c => NoDup (map fst c))).
  - intros c k v. apply cache_put_well_formed.
  - constructor.
Qed.

(** Both invariants hold in every reachable world. *)
Lemma reachable_invariants w :
  reachable w -> ledger_matches_store w /\ well_formed w.
Proof.
  intros Hr. split; [|now apply reachable_well_formed].
  induction Hr as [inc exc m | v w0 o w' _ IH Hr | val w0 o w' _ IH Hr
                  | val w0 o w' _ IH Hr | w0 o w' _ IH Hr | w0 w' _ IH Hc Hk].
  - split; cbn; [constructor|].
    intros k. split; [intros H; inversion H|congruence].
  - eapply render_matches; eauto.
  - eapply pruneCache_matches; eauto.
  - eapply pruneCache_matches; eauto.
  - eapply destroyed_matches; eauto.
  - eapply ledger_matches_store_ext; eauto.
Qed.

(** What the host model does stays within the reachable worlds. *)
Lemma host_step_reachable h op :
  reachable (world h) -> reachable (world (host_step h op)).
Proof.
  intros Hr. destruct op as [child raises|p|p|m|v|]; cbn.
  - destruct (render _ (world h)) as [[r|e] w'] eqn:Hrender; cbn.
    + apply reach_host with (w := w').
      * eapply reach_render; eauto.
      * destruct r; [now rewrite instantiate_cache|reflexivity].
      * destruct r; [now rewrite instantiate_keys|reflexivity].
    + eapply reach_render; eauto.
  - eapply reach_watch_include with (w := set_include p (world h)).
    + eapply reach_host; eauto.
    + apply surjective_pairing.
  - eapply reach_watch_exclude with (w := set_exclude p (world h)).
    + eapply reach_host; eauto.
    + apply surjective_pairing.
  - eapply reach_host; eauto.
  - eapply reach_host; eauto.
  - eapply reach_destroyed; [exact Hr|apply surjective_pairing].
Qed.

Lemma host_run_reachable ops : forall h,
  reachable (world h) -> reachable (world (host_run h ops)).
Proof.
  induction ops as [|op ops IH]; intros h Hr; [exact Hr|].
  apply IH, host_step_reachable, Hr.
Qed.


(** ** Key derivation *)

(** C6.  The cache key depends on the descriptor alone (it is a function
    of the vnode's [key] and of [Ctor.cid] and [tag], not of the cache):
    an explicit key is returned as it is; without one the key is the
    decimal [cid] followed by ["::"] and the tag when the tag is a
    non-empty string, and the [cid] alone when the tag is empty or
    missing.  A vnode with key ["k1"], [cid] 42 and tag ["tag"] has the
    cache key ["k1"], where the fallback would give ["42::tag"]. *)
Theorem cache_key_derivation :
  (forall i k t co opts,
      cache_key {| vid := i; key := Some k; tag := t; componentOptions := co |}
                opts = k) /\
  (forall i t co cid nm c s,
      cache_key {| vid := i; key := None; tag := t; componentOptions := co |}
                {| Ctor_cid := cid; Ctor_options_name := nm;
                   opts_tag := Some (String c s) |}
      = (JsLib.number_to_string (Z.of_nat cid) ++ "::" ++ String c s)%string) /\
  (forall i t co cid nm,
      cache_key {| vid := i; key := None; tag := t; componentOptions := co |}
                {| Ctor_cid := cid; Ctor_options_name := nm;
                   opts_tag := Some "" |}
      = JsLib.number_to_string (Z.of_nat cid) /\
      cache_key {| vid := i; key := None; tag := t; componentOptions := co |}
                {| Ctor_cid := cid; Ctor_options_name := nm;
                   opts_tag := None |}
      = JsLib.number_to_string (Z.of_nat cid)) /\
  (forall v1 v2 opts, key v1 = key v2 -> cache_key v1 opts = cache_key v2 opts) /\
  (forall i t co nm,
      cache_key {| vid := i; key := Some "k1"; tag := t; componentOptions := co |}
                {| Ctor_cid := 42; Ctor_options_name := nm;
                   opts_tag := Some "tag" |} = "k1" /\
      cache_key {| vid := i; key := None; tag := t; componentOptions := co |}
                {| Ctor_cid := 42; Ctor_options_name := nm;
                   opts_tag := Some "tag" |} = "42::tag").
Proof.
  assert (Hnil : forall s : string, (s ++ "")%string = s).
  { induction s as [|c s IH]; [reflexivity |].
    change (String c (s ++ "")%string = String c s). now rewrite IH. }
  split; [reflexivity |].
  split; [reflexivity |].
  split; [intros; split; unfold cache_key; simpl; apply Hnil |].
  split; [intros v1 v2 opts Hk; unfold cache_key; now rewrite Hk |].
  intros; split; reflexivity.
Qed.


(** ** The filter *)

Lemma cacheable_not_cached inc exc name :
  cacheable inc exc name = negb (not_cached inc exc name).
Proof.
  unfold cacheable, not_cached.
  destruct (truthy_pattern inc), (truthy_string name),
    (matches inc (default "" name)), (truthy_pattern exc),
    (matches exc (default "" name)); reflexivity.
Qed.

(** C5 (as amended).  For a request with a component descriptor, the
    cycle goes on to the hit/miss path exactly when ([include] is not
    given, which covers the empty string, or the name is a non-empty
    string that matches [include]) and not ([exclude] is given and the
    name is a non-empty string that matches it); otherwise [render]
    returns the vnode and the world, [cache] and [keys] included, is
    untouched.  A request with no name is never cached when [include] is
    given. *)
Theorem render_filter v opts w :
  componentOptions v = Some opts ->
  let name := getComponentName (Some opts) in
  render (Some v) w =
  (if cacheable (include w) (exclude w) name
   then match render_cached v opts w with
        | (Normal _, w') => (Normal (Some v), w')
        | (Throw e, w') => (Throw e, w')
        end
   else (Normal (Some v), w)) /\
  (truthy_pattern (include w) = true -> truthy_string name = false ->
   cacheable (include w) (exclude w) name = false).
Proof.
  intros Hco name. split.
  - rewrite render_eq, Hco, cacheable_not_cached.
    fold name. destruct (not_cached _ _ name); reflexivity.
  - intros Hi Hn. unfold cacheable. rewrite Hi, Hn. reflexivity.
Qed.

Lemma render_filter_witness :
  let w := created (PString "Foo,Bar") PUndefined MaxUndefined in
  let v := alloc 0 (component "Baz") in
  componentOptions v = d_opts (component "Baz") /\
  render (Some v) w = (Normal (Some v), w).
Proof.
  split; [reflexivity|].
  exact (proj1 (render_filter (alloc 0 (component "Baz")) _
                  (created (PString "Foo,Bar") PUndefined MaxUndefined)
                  eq_refl)).
Defined.

(** C5, as the specification states it, fails for [include = ""]: the
    pattern is present and no name matches it, yet the code takes the
    empty string for a missing pattern and caches the component. *)
Lemma empty_include_caches :
  let w := created (PString "") PUndefined MaxUndefined in
  let v := alloc 0 (component "Foo") in
  cacheable_as_specified (include w) (exclude w)
    (getComponentName (componentOptions v)) = false /\
  exists w', render (Some v) w = (Normal (Some v), w') /\
             keys w' = ["Foo"] /\
             cache_node (cache w') "Foo" = Some v.
Proof.
  split; [reflexivity|].
  eexists. split; [vm_compute; reflexivity|]. split; reflexivity.
Qed.

(** Apart from the empty string as [include], the two readings agree. *)
Lemma cacheable_as_specified_agrees inc exc name :
  inc <> PString "" ->
  cacheable inc exc name = cacheable_as_specified inc exc name.
Proof.
  intros Hinc. unfold cacheable, cacheable_as_specified.
  assert (Hi : truthy_pattern inc = is_set inc).
  { destruct inc as [|[|c s]| |]; try reflexivity. contradiction. }
  rewrite Hi. f_equal.
  destruct exc as [|[|c s]| |]; try reflexivity.
  cbn. destruct name as [[|c s]|]; reflexivity.
Qed.


(** ** Errors raised by [$destroy] *)

(** C1 (as amended).  [pruneCacheEntry] sends the destroy signal first
    and removes the key afterwards.  When the call raises, [cache] and
    [keys] are exactly as before the call and the key still has its
    entry; if the error comes from [$destroy], the signal has been sent
    to the instance of that entry.  The key is removed from both only
    when the call returns.  Either way the key is in both structures or,
    once removed, in none. *)
Theorem pruneCacheEntry_all_or_nothing k cur w :
  match pruneCacheEntry k cur w with
  | (Throw e, w') =>
      cache w' = cache w /\ keys w' = keys w /\
      cache_node (cache w') k <> None /\
      (forall n, e = DestroyError n ->
         exists c i, cache_node (cache w) k = Some c /\
                     held w c = Some i /\ iid i = n /\
                     destroy_raises i = true /\
                     destroyed_log w' = destroyed_log w ++ [i])
  | (Normal _, w') =>
      cache w' = cache_put (cache w) k None /\
      keys w' = JsLib.remove (keys w) k /\
      cache_node (cache w') k = None
  end.
Proof.
  rewrite pruneCacheEntry_eq.
  destruct (cache_node (cache w) k) as [c|] eqn:Hc.
  - destruct (must_destroy (Some c) cur).
    + destruct (held w c) as [i|] eqn:Hi.
      * destruct (destroy_raises i) eqn:Hr.
        -- split; [reflexivity|]. split; [reflexivity|].
           split; [cbn; congruence|].
           intros n [= <-]. exists c, i. repeat split; assumption.
        -- repeat split. apply cache_node_put_eq.
      * split; [reflexivity|]. split; [reflexivity|].
        split; [congruence|]. intros n. discriminate.
    + repeat split. apply cache_node_put_eq.
  - repeat split. apply cache_node_put_eq.
Qed.

(** C1, as the specification states it, fails: with [max = 2] and the
    entries A and B cached, the cycle of C evicts A; the [$destroy] of A's
    instance raises, and A is still in [cache] and in [keys]. *)
Lemma destroy_raise_keeps_entry :
  let h := host_run (host_created PUndefined PUndefined (MaxNumber 2))
             [Cycle (Some (component "A")) true; cycle "B"] in
  exists w',
    render (Some (alloc 2 (component "C"))) (world h)
    = (Throw (DestroyError 0), w') /\
    cache_node (cache w') "A" = Some (alloc 0 (component "A")) /\
    "A" ∈ keys w' /\
    destroyed_log w' = [ {| iid := 0; destroy_raises := true |} ].
Proof.
  eexists. split; [vm_compute; reflexivity|].
  split; [vm_compute; reflexivity|].
  split; [|vm_compute; reflexivity].
  apply list_elem_of_In. vm_compute. left. reflexivity.
Qed.


(** ** The bijection between [keys] and [cache] *)

(** C7.  In every reachable world (after any sequence of render cycles,
    filter-change prunes and teardown, each run to its end or to an error
    it raises, with anything the host does in between), [keys] has no
    duplicate and its elements are exactly the keys that [cache] maps to
    a vnode (a non-null entry). *)
Theorem reachable_ledger_matches_store w :
  reachable w -> ledger_matches_store w.
Proof.
  induction 1 as [inc exc m | v w0 o w' _ IH Hr | val w0 o w' _ IH Hr
                 | val w0 o w' _ IH Hr | w0 o w' _ IH Hr | w0 w' _ IH Hc Hk].
  - split; cbn; [constructor|].
    intros k. split; [intros H; inversion H|congruence].
  - eapply render_matches; eauto.
  - eapply pruneCache_matches; eauto.
  - eapply pruneCache_matches; eauto.
  - eapply destroyed_matches; eauto.
  - eapply ledger_matches_store_ext; eauto.
Qed.

Lemma reachable_ledger_matches_store_witness :
  reachable (world (host_run scenario_start [cycle "A"; cycle "B"])) /\
  ledger_matches_store (world (host_run scenario_start [cycle "A"; cycle "B"])).
Proof.
  assert (H : reachable (world (host_run scenario_start [cycle "A"; cycle "B"])))
    by (apply host_run_reachable; apply reach_created).
  split; [exact H|].
  apply (reachable_ledger_matches_store _ H).
Defined.


(** ** Values of [max] that set no bound *)

(** The values of [max] under which no key list is ever over capacity are
    exactly the falsy ones and those [parseInt] reads no number from. *)
Lemma never_over_capacity m :
  (forall ks, over_capacity m ks = false) <-> capacity m = None.
Proof.
  split.
  - intros H. destruct (capacity m) as [n|] eqn:Hc; [|reflexivity].
    specialize (H (repeat "" (S (Z.to_nat n)))).
    rewrite over_capacity_capacity, Hc, repeat_length in H.
    apply Z.ltb_ge in H. lia.
  - intros Hc ks. now rewrite over_capacity_capacity, Hc.
Qed.





Lemma capacity_unusable_values :
  capacity MaxUndefined = None /\
  capacity (MaxNumber 0) = None /\
  capacity (MaxString "") = None /\
  capacity (MaxString "abc") = None /\
  capacity (MaxString "-x") = None /\
  capacity (MaxString "0x") = None.
Proof. repeat split. Qed.

Lemma capacity_usable_values :
  capacity (MaxString "0") = Some 0%Z /\
  capacity (MaxString "-1") = Some (-1)%Z /\
  capacity (MaxString " 3") = Some 3%Z /\
  capacity (MaxString "+3") = Some 3%Z /\
  capacity (MaxString "3px") = Some 3%Z /\
  capacity (MaxNumber (-2)) = Some (-2)%Z.
Proof. repeat split. Qed.




(** ** The capacity bound *)

















(** ** The scenario of the specification *)

(** C4.  With [max = 3] and an empty cache, the cycles miss A, miss B,
    miss C, hit A, miss D take [keys] through [A], [A,B], [A,B,C],
    [B,C,A] and [C,A,D]; B's instance has not been destroyed before the
    cycle of D and has been destroyed exactly once after it, whatever the
    currently rendered vnode [cur] is during that cycle, provided it does
    not exempt B (its tag differs from B's). *)
Theorem lru_scenario (cur : option VNode) :
  must_destroy (Some (alloc 1 (component "B"))) cur = true ->
  let h5 := host_step (host_step scenario_prefix (SetCurrent cur)) (cycle "D") in
  let instB := {| iid := 1; destroy_raises := false |} in
  keys (world (host_run scenario_start [cycle "A"])) = ["A"] /\
  keys (world (host_run scenario_start [cycle "A"; cycle "B"])) = ["A"; "B"] /\
  keys (world (host_run scenario_start [cycle "A"; cycle "B"; cycle "C"]))
  = ["A"; "B"; "C"] /\
  keys (world scenario_prefix) = ["B"; "C"; "A"] /\
  keys (world h5) = ["C"; "A"; "D"] /\
  held (world scenario_prefix) (alloc 1 (component "B")) = Some instB /\
  count_occ Instance_eq_dec (destroyed_log (world scenario_prefix)) instB = 0 /\
  count_occ Instance_eq_dec (destroyed_log (world h5)) instB = 1.
Proof.
  intros H. cbv zeta.
  remember scenario_prefix as h4 eqn:E4.
  assert (E5 : world (host_step (host_step h4 (SetCurrent cur)) (cycle "D"))
               = instantiate (alloc 4 (component "D"))
                   {| iid := 4; destroy_raises := false |}
                   (set_vnode (Some (alloc 4 (component "D")))
                      (flagged (alloc 4 (component "D"))
                         (evicted "B"
                            (logged {| iid := 1; destroy_raises := false |}
                               (stored "D" (alloc 4 (component "D"))
                                  (set_vnode cur (world h4)))))))).
  { unfold cycle. unfold host_step at 1.
    replace (next_vid (host_step h4 (SetCurrent cur))) with 4
      by (subst h4; vm_compute; reflexivity).
    replace (next_iid (host_step h4 (SetCurrent cur))) with 4
      by (subst h4; vm_compute; reflexivity).
    cbn [option_map].
    change (world (host_step h4 (SetCurrent cur)))
      with (set_vnode cur (world h4)).
    rewrite (render_miss_evicts (alloc 4 (component "D"))
               {| Ctor_cid := 42; Ctor_options_name := Some "D";
                  opts_tag := Some "D" |}
               (set_vnode cur (world h4)) "B" (alloc 1 (component "B"))
               {| iid := 1; destroy_raises := false |});
      try (subst h4; vm_compute; reflexivity).
    exact H. }
  rewrite E5. subst h4. vm_compute. repeat split.
Qed.

Lemma lru_scenario_witness :
  must_destroy (Some (alloc 1 (component "B")))
               (Some (alloc 3 (component "A"))) = true /\
  keys (world (host_step
                 (host_step scenario_prefix
                    (SetCurrent (Some (alloc 3 (component "A")))))
                 (cycle "D")))
  = ["C"; "A"; "D"].
Proof.
  split; [reflexivity |].
  apply (lru_scenario (Some (alloc 3 (component "A")))). reflexivity.
Defined.


(** ** Filter-change pruning *)

Lemma rejected_put filter c k0 k :
  rejected filter (cache_put c k0 None) k =
  if bool_decide (k = k0) then false else rejected filter c k.
Proof.
  unfold rejected. case_bool_decide as E.
  - subst k. now rewrite cache_node_put_eq.
  - rewrite cache_node_put_ne by congruence. reflexivity.
Qed.

Lemma victim_put filter cur c insts k0 k :
  k <> k0 ->
  victim filter cur (cache_put c k0 None) insts k = victim filter cur c insts k.
Proof.
  intros Hne. unfold victim.
  rewrite rejected_put, bool_decide_eq_false_2 by exact Hne.
  rewrite cache_node_put_ne by congruence. reflexivity.
Qed.

Lemma prune_loop filter cur ks :
  NoDup ks -> forall w1 w',
  NoDup (keys w1) ->
  for_in ks (fun k w => if rejected filter (cache w) k
                        then pruneCacheEntry k cur w
                        else (Normal tt, w)) w1 = (Normal tt, w') ->
  (forall k, cache_get (cache w') k =
             if bool_decide (k ∈ ks) && rejected filter (cache w1) k
             then Some None else cache_get (cache w1) k) /\
  (forall k, k ∈ keys w' <->
             k ∈ keys w1 /\ ~ (k ∈ ks /\ rejected filter (cache w1) k = true)) /\
  destroyed_log w' =
    destroyed_log w1 ++
    omap (victim filter cur (cache w1) (componentInstance w1)) ks /\
  componentInstance w' = componentInstance w1.
Proof.
  induction 1 as [|k0 ks Hk0 Hnd IH]; intros w1 w' Hkeys; simpl.
  - intros [= <-]. rewrite app_nil_r. split; [|split; [|split]]; try reflexivity.
    intros k. split; [|tauto].
    intros Hin. split; [exact Hin|]. intros [Hin' _]. inversion Hin'.
  - unfold bind.
    destruct (rejected filter (cache w1) k0) eqn:Hrej.
    + destruct (pruneCacheEntry k0 cur w1) as [[[]|e] w2] eqn:Hp; [|discriminate].
      intros Hloop.
      destruct (pruneCacheEntry_normal _ _ _ _ Hp) as (Hc & Hk & Hi & Hl).
      assert (Hkeys2 : NoDup (keys w2)) by (rewrite Hk; now apply remove_NoDup).
      destruct (IH w2 w' Hkeys2 Hloop) as (IHc & IHk & IHl & IHi).
      split; [|split; [|split]].
      * intros k. rewrite IHc, Hc, rejected_put.
        destruct (decide (k = k0)) as [->|Hne].
        -- rewrite (bool_decide_eq_true_2 (k0 = k0)) by reflexivity.
           rewrite andb_false_r, cache_get_put_eq.
           rewrite (bool_decide_eq_true_2 (k0 ∈ k0 :: ks))
             by apply list_elem_of_here.
           now rewrite Hrej.
        -- rewrite (bool_decide_eq_false_2 (k = k0)) by exact Hne.
           rewrite cache_get_put_ne by congruence.
           assert (Hb : bool_decide (k ∈ k0 :: ks) = bool_decide (k ∈ ks)).
           { apply bool_decide_ext. rewrite elem_of_cons. tauto. }
           now rewrite Hb.
      * intros k. rewrite IHk, Hk, Hc, rejected_put, elem_of_cons.
        destruct (decide (k = k0)) as [->|Hne].
        -- rewrite (bool_decide_eq_true_2 (k0 = k0)) by reflexivity. split.
           ++ intros [H _]. now apply remove_not_In in H.
           ++ intros [_ H]. exfalso. apply H. auto.
        -- rewrite (bool_decide_eq_false_2 (k = k0)) by exact Hne. split.
           ++ intros [H1 H2]. split; [eapply remove_In, H1|].
              intros [[->|H3] H4]; [congruence|]. apply H2. auto.
           ++ intros [H1 H2]. split; [now apply remove_In_ne|].
              intros [H3 H4]. apply H2. auto.
      * rewrite IHl, Hl, Hi, <- app_assoc. f_equal.
        unfold victim at 2. rewrite Hrej. cbn [andb].
        assert (Hrest : omap (victim filter cur (cache w2) (componentInstance w1)) ks
                        = omap (victim filter cur (cache w1) (componentInstance w1)) ks).
        { apply omap_ext_in. intros k Hk'. rewrite Hc. apply victim_put.
          intros ->. contradiction. }
        rewrite Hrest. unfold held.
        destruct (cache_node (cache w1) k0) as [c|]; [|reflexivity].
        destruct (must_destroy (Some c) cur); [|reflexivity].
        destruct (componentInstance w1 !! vid c); reflexivity.
      * congruence.
    + intros Hloop. destruct (IH w1 w' Hkeys Hloop) as (IHc & IHk & IHl & IHi).
      split; [|split; [|split]].
      * intros k. rewrite IHc. destruct (decide (k = k0)) as [->|Hne].
        -- rewrite Hrej, !andb_false_r. reflexivity.
        -- assert (Hb : bool_decide (k ∈ k0 :: ks) = bool_decide (k ∈ ks)).
           { apply bool_decide_ext. rewrite elem_of_cons. tauto. }
           now rewrite Hb.
      * intros k. rewrite IHk, elem_of_cons. split.
        -- intros [H1 H2]. split; [exact H1|].
           intros [[->|H3] H4]; [congruence|]. apply H2. auto.
        -- intros [H1 H2]. split; [exact H1|]. intros [H3 H4]. apply H2. auto.
      * rewrite IHl. f_equal. unfold victim at 2. rewrite Hrej.
        destruct (cache_node (cache w1) k0); reflexivity.
      * exact IHi.
Qed.

Lemma rejected_visited filter c k :
  rejected filter c k = true -> k ∈ cache_keys c.
Proof.
  intros H. apply own_keys_elem, cache_get_names.
  unfold rejected, cache_node in H.
  destruct (cache_get c k); [congruence|discriminate].
Qed.

(** C2 (as amended).  A filter-change prune that returns has set to
    [null] the slot of every entry whose non-empty name the filter
    rejects and has removed its key from [keys], the entry exempted by
    the current vnode included; it has left every other slot and key as
    they were; and it has destroyed, in enumeration order, exactly the
    instances of the rejected entries whose tag differs from the tag of
    the current vnode.  The exempted entry is removed without being
    destroyed. *)
Theorem pruneCache_removes_rejected filter w w' :
  reachable w ->
  pruneCache filter w = (Normal tt, w') ->
  (forall k, rejected filter (cache w) k = true ->
             cache_get (cache w') k = Some None /\ k ∉ keys w') /\
  (forall k, rejected filter (cache w) k = false ->
             cache_get (cache w') k = cache_get (cache w) k /\
             (k ∈ keys w' <-> k ∈ keys w)) /\
  destroyed_log w' =
    destroyed_log w ++
    omap (victim filter (_vnode w) (cache w) (componentInstance w))
         (cache_keys (cache w)) /\
  (forall k c, cache_node (cache w) k = Some c ->
               must_destroy (Some c) (_vnode w) = false ->
               victim filter (_vnode w) (cache w) (componentInstance w) k = None).
Proof.
  intros Hreach Hp. rewrite pruneCache_eq in Hp.
  destruct (reachable_invariants _ Hreach) as [[Hnd _] Hwf].
  destruct (prune_loop filter (_vnode w) (cache_keys (cache w))
              (own_keys_NoDup _ Hwf) w w' Hnd Hp) as (Hc & Hk & Hl & _).
  split; [|split; [|split]].
  - intros k Hrej. split.
    + rewrite Hc, Hrej.
      rewrite bool_decide_eq_true_2 by (eapply rejected_visited, Hrej).
      reflexivity.
    + rewrite Hk. intros [_ H]. apply H. split; [|exact Hrej].
      eapply rejected_visited, Hrej.
  - intros k Hrej. split.
    + now rewrite Hc, Hrej, andb_false_r.
    + rewrite Hk. split; [tauto|]. intros H. split; [exact H|].
      intros [_ H']. congruence.
  - exact Hl.
  - intros k c Hnode Hex. unfold victim. rewrite Hnode, Hex, andb_false_r.
    reflexivity.
Qed.

Lemma pruneCache_removes_rejected_witness :
  let w := set_exclude (PString "A,B")
             (world (host_run scenario_start [cycle "A"; cycle "B"])) in
  let filter := fun name => negb (matches (PString "A,B") name) in
  let w' := snd (pruneCache filter w) in
  reachable w /\
  pruneCache filter w = (Normal tt, w') /\
  (cache_get (cache w') "B" = Some None /\ "B" ∉ keys w') /\
  destroyed_log w' =
    destroyed_log w ++
    omap (victim filter (_vnode w) (cache w) (componentInstance w))
         (cache_keys (cache w)).
Proof.
  intros w filter w'.
  assert (Hr : reachable w).
  { apply reach_host with
      (w := world (host_run scenario_start [cycle "A"; cycle "B"]));
      [|reflexivity..].
    apply host_run_reachable, reach_created. }
  assert (Hp : pruneCache filter w = (Normal tt, w'))
    by (vm_compute; reflexivity).
  destruct (pruneCache_removes_rejected filter w w' Hr Hp) as (H1 & _ & H3 & _).
  split; [exact Hr|]. split; [exact Hp|]. split; [|exact H3].
  apply H1. vm_compute. reflexivity.
Defined.

(** C2, as the specification states it, fails: with A and B cached and B
    the current vnode, a change of [exclude] that rejects both names
    destroys A's instance only, yet B is removed from [cache] and from
    [keys] like A. *)
Lemma current_entry_is_removed :
  let h := host_run scenario_start [cycle "A"; cycle "B"] in
  let h' := host_step h (ChangeExclude (PString "A,B")) in
  _vnode (world h) = Some (alloc 1 (component "B")) /\
  cache_node (cache (world h)) "B" = Some (alloc 1 (component "B")) /\
  "B" ∈ keys (world h) /\
  cache_node (cache (world h')) "B" = None /\
  keys (world h') = [] /\
  destroyed_log (world h') = [ {| iid := 0; destroy_raises := false |} ].
Proof.
  split; [vm_compute; reflexivity|].
  split; [vm_compute; reflexivity|].
  split; [apply list_elem_of_In; vm_compute; auto|].
  vm_compute. repeat split.
Qed.


(** ** A key that comes back after its eviction *)

(** A cycle whose key has no vnode in [cache] and is not in [keys] takes
    the miss branch: the vnode is stored under the key and the key
    appended before the capacity test, and both are still so at the end,
    whatever the outcome, unless the new entry is itself the victim of
    the capacity test (which takes an empty [keys] and a capacity below
    one). *)
Lemma dead_slot_misses k v opts w1 :
  cache_key v opts = k ->
  cache_node (cache w1) k = None ->
  k ∉ keys w1 ->
  render_cached v opts w1 =
    (if over_capacity (max w1) (keys w1 ++ [k])
     then match pruneCacheEntry (default "undefined" (head (keys w1 ++ [k])))
                  (_vnode w1) (stored k v w1) with
          | (Normal _, w2) => (Normal tt, flagged v w2)
          | (Throw e, w2) => (Throw e, w2)
          end
     else (Normal tt, flagged v (stored k v w1))) /\
  cache_node (cache (stored k v w1)) k = Some v /\
  keys (stored k v w1) = keys w1 ++ [k] /\
  (keys w1 ≠ [] \/ over_capacity (max w1) [k] = false ->
   exists o w2,
     render_cached v opts w1 = (o, w2) /\
     cache_node (cache w2) k = Some v /\
     last (keys w2) = Some k).
Proof.
  intros Hk Hnone Hnotin. subst k.
  rewrite (render_cached_miss _ _ _ Hnone). cbv zeta.
  set (k := cache_key v opts) in *.
  change (keys (stored k v w1)) with (keys w1 ++ [k]).
  assert (Hst : cache_node (cache (stored k v w1)) k = Some v)
    by apply cache_node_put_eq.
  split; [reflexivity|]. split; [exact Hst|]. split; [reflexivity|].
  intros Hcap.
  destruct (over_capacity (max w1) (keys w1 ++ [k])) eqn:Hover.
  - assert (Hne : keys w1 ≠ []).
    { destruct Hcap as [Hne|Hfalse]; [exact Hne|].
      intros E. rewrite E in Hover. cbn in Hover. congruence. }
    destruct (head (keys w1 ++ [k])) as [k0|] eqn:Hhd.
    2:{ destruct (keys w1); discriminate. }
    assert (Hk0 : k0 <> k).
    { intros ->. apply Hnotin. destruct (keys w1) as [|x l]; [congruence|].
      cbn in Hhd. injection Hhd as ->. apply list_elem_of_here. }
    change (default "undefined" (Some k0)) with k0.
    pose proof (pruneCacheEntry_outcome k0 (_vnode w1) (stored k v w1)) as Ho.
    destruct (pruneCacheEntry k0 (_vnode w1) (stored k v w1))
      as [[[]|e] w2] eqn:Hp2; destruct Ho as (Hc2 & Hks2 & _).
    + eexists _, _. split; [reflexivity|].
      cbn [flagged cache keys set_keepAlive].
      rewrite Hc2, Hks2. split.
      * rewrite cache_node_put_ne by exact Hk0. exact Hst.
      * change (keys (stored k v w1)) with (keys w1 ++ [k]).
        rewrite (remove_head_app _ _ _ Hhd Hne). apply last_snoc.
    + eexists _, _. split; [reflexivity|].
      rewrite Hc2, Hks2. split; [exact Hst|apply last_snoc].
  - eexists _, _. split; [reflexivity|]. split; [exact Hst|apply last_snoc].
Qed.

Lemma pruneCacheEntry_componentInstance k cur w :
  componentInstance (snd (pruneCacheEntry k cur w)) = componentInstance w.
Proof.
  rewrite pruneCacheEntry_eq.
  destruct (cache_node (cache w) k) as [c|];
    [destruct (must_destroy (Some c) cur);
     [destruct (held w c) as [i|]; [destruct (destroy_raises i)|]|]|];
    reflexivity.
Qed.

(** A call of [pruneCacheEntry] that returns leaves its key dead. *)
Lemma pruneCacheEntry_dead k cur w w1 :
  NoDup (keys w) -> pruneCacheEntry k cur w = (Normal tt, w1) -> dead k w1.
Proof.
  intros Hnd Hp. destruct (pruneCacheEntry_normal _ _ _ _ Hp) as (Hc & Hk & _).
  split.
  - rewrite Hc. apply cache_get_put_eq.
  - rewrite Hk. now apply remove_not_In.
Qed.

(** No call of [pruneCacheEntry] brings a dead key back. *)
Lemma pruneCacheEntry_keeps_dead k k0 cur w o w1 :
  dead k w -> pruneCacheEntry k0 cur w = (o, w1) -> dead k w1.
Proof.
  intros [Hslot Hnotin] Hp.
  pose proof (pruneCacheEntry_outcome k0 cur w) as Ho. rewrite Hp in Ho.
  destruct o as [[]|e]; destruct Ho as (Hc & Hk & _); split.
  - rewrite Hc. destruct (decide (k0 = k)) as [->|Hne].
    + apply cache_get_put_eq.
    + now rewrite cache_get_put_ne.
  - rewrite Hk. intros Hin. apply Hnotin. eapply remove_In, Hin.
  - now rewrite Hc.
  - now rewrite Hk.
Qed.

Lemma dead_no_node k w : dead k w -> cache_node (cache w) k = None.
Proof. intros [Hslot _]. unfold cache_node. now rewrite Hslot. Qed.

(** C10.  An eviction or a prune leaves the key dead: its slot is still a
    property of [cache], holding [null], and the key is not in [keys].
    This is so after a call of [pruneCacheEntry] for the key that
    returns, after a render cycle that returns from evicting the first
    key, and after a filter change that returns for a key whose entry the
    filter rejects.  A dead key stays dead through the filter changes and
    through the render cycles that derive another key.  The next render
    cycle that derives the key and passes the filter finds nothing truthy
    under it and takes the miss branch: it stores its vnode under the key
    and appends the key to [keys] before the capacity test, and takes no
    instance over; at the end of the cycle, whatever its outcome, the new
    vnode is the entry of the key and the key is last in [keys] (as long
    as the new entry is not itself the victim of the capacity test, which
    takes an empty [keys] and a capacity below one). *)
Theorem evicted_key_misses k w :
  reachable w ->
  (forall cur w1, pruneCacheEntry k cur w = (Normal tt, w1) -> dead k w1) /\
  (forall v opts r w1,
      componentOptions v = Some opts ->
      not_cached (include w) (exclude w) (getComponentName (Some opts)) = false ->
      cache_node (cache w) (cache_key v opts) = None ->
      over_capacity (max w) (keys w ++ [cache_key v opts]) = true ->
      head (keys w) = Some k ->
      render (Some v) w = (Normal r, w1) ->
      dead k w1) /\
  (forall filter w1,
      rejected filter (cache w) k = true ->
      pruneCache filter w = (Normal tt, w1) ->
      dead k w1) /\
  (dead k w ->
   (forall v o w1, derives v k = false -> render v w = (o, w1) -> dead k w1) /\
   (forall filter o w1, pruneCache filter w = (o, w1) -> dead k w1) /\
   (forall v opts,
      componentOptions v = Some opts ->
      cache_key v opts = k ->
      not_cached (include w) (exclude w) (getComponentName (Some opts)) = false ->
      render (Some v) w =
        (if over_capacity (max w) (keys w ++ [k])
         then match pruneCacheEntry (default "undefined" (head (keys w ++ [k])))
                      (_vnode w) (stored k v w) with
              | (Normal _, w2) => (Normal (Some v), flagged v w2)
              | (Throw e, w2) => (Throw e, w2)
              end
         else (Normal (Some v), flagged v (stored k v w))) /\
      cache_node (cache (stored k v w)) k = Some v /\
      keys (stored k v w) = keys w ++ [k] /\
      componentInstance (snd (render (Some v) w)) = componentInstance w /\
      (keys w ≠ [] \/ over_capacity (max w) [k] = false ->
       cache_node (cache (snd (render (Some v) w))) k = Some v /\
       last (keys (snd (render (Some v) w))) = Some k))).
Proof.
  intros Hreach.
  destruct (reachable_invariants _ Hreach) as [Hinv Hwf].
  pose proof Hinv as [Hnd Hiff].
  split; [|split; [|split]].
  - intros cur w1. now apply pruneCacheEntry_dead.
  - intros v opts r w1 Hco Hnc Hmiss Hover Hhd.
    rewrite (render_miss _ _ _ Hco Hnc Hmiss). cbv zeta.
    set (k' := cache_key v opts) in *.
    change (keys (stored k' v w)) with (keys w ++ [k']). rewrite Hover.
    assert (Hhd' : head (keys w ++ [k']) = Some k)
      by (destruct (keys w); [discriminate|exact Hhd]).
    rewrite Hhd'. change (default "undefined" (Some k)) with k.
    destruct (pruneCacheEntry k (_vnode w) (stored k' v w))
      as [[[]|e] w2] eqn:Hp; [|discriminate].
    intros [= _ <-].
    pose proof (stored_matches k' v w Hmiss Hinv) as [Hnd' _].
    exact (pruneCacheEntry_dead _ _ _ _ Hnd' Hp).
  - intros filter w1 Hrej Hp. rewrite pruneCache_eq in Hp.
    destruct (prune_loop filter (_vnode w) (cache_keys (cache w))
                (own_keys_NoDup _ Hwf) w w1 Hnd Hp) as (Hc & Hk & _).
    split.
    + rewrite Hc, Hrej.
      rewrite bool_decide_eq_true_2 by (eapply rejected_visited, Hrej).
      reflexivity.
    + rewrite Hk. intros [_ H]. apply H. split; [|exact Hrej].
      eapply rejected_visited, Hrej.
  - intros Hdead. pose proof (dead_no_node _ _ Hdead) as Hnone.
    destruct Hdead as [Hslot Hnotin].
    split; [|split].
    + intros v o w1 Hder. rewrite render_eq.
      destruct v as [x|]; [|intros [= <- <-]; now split].
      cbn [derives] in Hder.
      destruct (componentOptions x) as [opts|]; [|intros [= <- <-]; now split].
      apply String.eqb_neq in Hder.
      destruct (not_cached _ _ _); [intros [= <- <-]; now split|].
      assert (Hrc : dead k (snd (render_cached x opts w))).
      { destruct (cache_node (cache w) (cache_key x opts)) as [c|] eqn:Hc.
        - rewrite (render_cached_hit _ _ _ _ Hc). split; [exact Hslot|].
          cbn [snd flagged keys set_keepAlive set_keys].
          rewrite elem_of_app, list_elem_of_singleton.
          intros [Hin|Hin]; [|congruence].
          apply Hnotin. eapply remove_In, Hin.
        - rewrite (render_cached_miss _ _ _ Hc). cbv zeta.
          assert (Hst : dead k (stored (cache_key x opts) x w)).
          { split.
            - cbn [stored cache set_keys set_cache].
              now rewrite cache_get_put_ne.
            - change (keys (stored (cache_key x opts) x w))
                with (keys w ++ [cache_key x opts]).
              rewrite elem_of_app, list_elem_of_singleton.
              intros [Hin|Hin]; [contradiction|congruence]. }
          destruct (over_capacity _ _); [|exact Hst].
          destruct (pruneCacheEntry _ _ _) as [[[]|e] w2] eqn:Hp; cbn [snd];
            exact (pruneCacheEntry_keeps_dead _ _ _ _ _ _ Hst Hp). }
      destruct (render_cached x opts w) as [[[]|e] w2];
        intros [= <- <-]; exact Hrc.
    + intros filter o w1. unfold pruneCache, bind, get.
      apply (for_in_preserves (dead k)); [|now split].
      intros k0 w0 o0 w0' Hd. unfold bind, get.
      destruct (cache_node (cache w0) k0) as [c|]; [|intros [= <- <-]; exact Hd].
      destruct (getComponentName (componentOptions c)) as [name|];
        [|intros [= <- <-]; exact Hd].
      unfold when. destruct (_ && _); [|intros [= <- <-]; exact Hd].
      now apply pruneCacheEntry_keeps_dead.
    + intros v opts Hco Hk Hnc. subst k.
      set (k := cache_key v opts) in *.
      pose proof (render_miss v opts w Hco Hnc Hnone) as Hr. cbv zeta in Hr.
      fold k in Hr. change (keys (stored k v w)) with (keys w ++ [k]) in Hr.
      assert (Hst : cache_node (cache (stored k v w)) k = Some v)
        by apply cache_node_put_eq.
      split; [exact Hr|]. split; [exact Hst|]. split; [reflexivity|].
      rewrite Hr. clear Hr.
      destruct (over_capacity (max w) (keys w ++ [k])) eqn:Hover.
      * pose proof (pruneCacheEntry_componentInstance
                      (default "undefined" (head (keys w ++ [k])))
                      (_vnode w) (stored k v w)) as Hci.
        split.
        { destruct (pruneCacheEntry _ _ _) as [[[]|e] w2]; exact Hci. }
        intros Hcap.
        assert (Hne : keys w ≠ []).
        { destruct Hcap as [Hne|Hfalse]; [exact Hne|].
          intros E. rewrite E in Hover. cbn in Hover. congruence. }
        destruct (head (keys w ++ [k])) as [k0|] eqn:Hhd.
        2:{ destruct (keys w); discriminate. }
        assert (Hk0 : k0 <> k).
        { intros ->. apply Hnotin. destruct (keys w) as [|x l]; [congruence|].
          cbn in Hhd. injection Hhd as ->. apply list_elem_of_here. }
        change (default "undefined" (Some k0)) with k0 in *.
        pose proof (pruneCacheEntry_outcome k0 (_vnode w) (stored k v w)) as Ho.
        destruct (pruneCacheEntry k0 (_vnode w) (stored k v w))
          as [[[]|e] w2] eqn:Hp2; destruct Ho as (Hc2 & Hks2 & _);
          cbn [snd flagged cache keys set_keepAlive]; rewrite Hc2, Hks2.
        -- split.
           ++ rewrite cache_node_put_ne by exact Hk0. exact Hst.
           ++ change (keys (stored k v w)) with (keys w ++ [k]).
              rewrite (remove_head_app _ _ _ Hhd Hne). apply last_snoc.
        -- split; [exact Hst|apply last_snoc].
      * split; [reflexivity|]. intros _. split; [exact Hst|apply last_snoc].
Qed.

Lemma evicted_key_misses_witness :
  let w := world (host_run (host_created PUndefined PUndefined (MaxNumber 2))
                    [cycle "A"; cycle "B"; cycle "C"]) in
  let v := alloc 3 (component "A") in
  reachable w /\
  dead "A" w /\
  keys w = ["B"; "C"] /\
  cache_node (cache (snd (render (Some v) w))) "A" = Some v /\
  last (keys (snd (render (Some v) w))) = Some "A".
Proof.
  intros w v.
  assert (Hr : reachable w) by (apply host_run_reachable, reach_created).
  assert (Hd : dead "A" w).
  { split; [vm_compute; reflexivity|]. decide_by_compute. }
  assert (Hnc : not_cached (include w) (exclude w)
                  (getComponentName (componentOptions v)) = false)
    by (vm_compute; reflexivity).
  assert (Hne : keys w ≠ []) by (vm_compute; discriminate).
  destruct (evicted_key_misses "A" w Hr) as (_ & _ & _ & H).
  destruct (H Hd) as (_ & _ & Hmiss).
  destruct (Hmiss v _ eq_refl eq_refl Hnc) as (_ & _ & _ & _ & Hend).
  split; [exact Hr|]. split; [exact Hd|].
  split; [vm_compute; reflexivity|].
  exact (Hend (or_introl Hne)).
Defined.


(** ** At most one destroy signal *)



















(** * Further properties of the component *)

(** ** Patterns *)

Lemma split_comma_aux_fields cur s x :
  x ∈ JsLib.split_comma_aux cur s -> has_comma cur = false ->
  has_comma x = false.
Proof.
  revert cur. induction s as [|c s IH]; intros cur; simpl.
  - intros Hx Hcur. apply list_elem_of_singleton in Hx. now subst x.
  - destruct (Ascii.eqb c ",") eqn:Hc.
    + rewrite elem_of_cons. intros [->|Hx] Hcur; [exact Hcur|].
      now apply (IH EmptyString).
    + intros Hx Hcur. apply (IH _ Hx).
      clear -Hc Hcur. induction cur as [|d cur IHc]; simpl in *.
      * now rewrite Hc.
      * apply orb_false_iff in Hcur as [-> Hcur]. cbn. now apply IHc.
Qed.

Lemma includes_elem arr x : JsLib.includes arr x = true <-> x ∈ arr.
Proof.
  unfold JsLib.includes. induction arr as [|y arr IH]; simpl.
  - split; [discriminate|intros H; inversion H].
  - rewrite orb_true_iff, IH, elem_of_cons, String.eqb_eq. tauto.
Qed.

(** X1.  A name with a comma in it never matches a string pattern: the
    pattern is cut at every comma before the name is looked up. *)
Theorem matches_string_no_comma s name :
  matches (PString s) name = true -> has_comma name = false.
Proof.
  cbn [matches]. rewrite includes_elem. intros Hin.
  apply (split_comma_aux_fields EmptyString s name Hin). reflexivity.
Qed.

Lemma matches_string_no_comma_witness :
  matches (PString "Foo,Bar") "Bar" = true /\ has_comma "Bar" = false.
Proof.
  split; [reflexivity|].
  apply (matches_string_no_comma "Foo,Bar" "Bar"). reflexivity.
Defined.

Lemma append_assoc_string (a b c : string) :
  ((a ++ b) ++ c)%string = (a ++ (b ++ c))%string.
Proof.
  induction a as [|x a IH]; [reflexivity|].
  change (String x ((a ++ b) ++ c)%string = String x (a ++ (b ++ c))%string).
  now rewrite IH.
Qed.

Lemma split_comma_aux_app cur x rest :
  has_comma x = false ->
  JsLib.split_comma_aux cur (x ++ rest)%string
  = JsLib.split_comma_aux (cur ++ x)%string rest.
Proof.
  revert cur. induction x as [|c x IH]; intros cur Hx.
  - cbn. f_equal. clear. induction cur as [|d cur IHc]; [reflexivity|].
    change (String d cur = String d (cur ++ "")%string). now rewrite <- IHc.
  - cbn in Hx. apply orb_false_iff in Hx as [Hc Hx].
    change (String c x ++ rest)%string with (String c (x ++ rest)%string).
    cbn [JsLib.split_comma_aux]. rewrite Hc, (IH _ Hx). f_equal.
    rewrite append_assoc_string. reflexivity.
Qed.

Lemma split_join_comma arr :
  arr <> [] -> (forall x, x ∈ arr -> has_comma x = false) ->
  JsLib.split_comma (join_comma arr) = arr.
Proof.
  unfold JsLib.split_comma.
  induction arr as [|x arr IH]; [congruence|]. intros _ Hall.
  assert (Hx : has_comma x = false) by (apply Hall, list_elem_of_here).
  destruct arr as [|y arr].
  - cbn [join_comma].
    replace x with (x ++ "")%string at 1.
    2:{ clear. induction x as [|d x IHx]; [reflexivity|].
        change (String d (x ++ "")%string = String d x). now rewrite IHx. }
    rewrite (split_comma_aux_app _ _ _ Hx). reflexivity.
  - change (join_comma (x :: y :: arr))
      with (x ++ String "," (join_comma (y :: arr)))%string.
    rewrite (split_comma_aux_app _ _ _ Hx). cbn [JsLib.split_comma_aux].
    change (Ascii.eqb "," ",") with true. cbv iota.
    change ("" ++ x)%string with x. f_equal.
    apply IH; [discriminate|].
    intros z Hz. apply Hall. now apply list_elem_of_further.
Qed.

(** X2.  A string pattern and an array pattern agree: joining a
    non-empty array of comma-free names with commas gives a string
    pattern that matches exactly the names the array matches. *)
Theorem matches_string_array arr name :
  arr <> [] -> (forall x, x ∈ arr -> has_comma x = false) ->
  matches (PString (join_comma arr)) name = matches (PArray arr) name.
Proof.
  intros Hne Hall. cbn [matches]. now rewrite split_join_comma.
Qed.

Lemma matches_string_array_witness :
  matches (PString "Foo,Bar") "Bar" = matches (PArray ["Foo"; "Bar"]) "Bar".
Proof.
  apply (matches_string_array ["Foo"; "Bar"] "Bar"); [discriminate|].
  intros x Hx. apply elem_of_cons in Hx as [->|Hx]; [reflexivity|].
  apply list_elem_of_singleton in Hx. now subst x.
Defined.

(** ** Hits and recency *)

Lemma remove_perm arr item :
  item ∈ arr -> JsLib.remove arr item ++ [item] ≡ₚ arr.
Proof.
  induction arr as [|y arr IH]; [intros H; inversion H|]. simpl.
  destruct (String.eqb_spec y item) as [->|Hne].
  - intros _. symmetry. apply Permutation_cons_append.
  - rewrite elem_of_cons. intros [->|Hin]; [congruence|].
    cbn. now rewrite IH.
Qed.

(** X3.  A hit changes nothing but the order of [keys] and the vnode of
    the cycle: [cache] keeps the vnode stored first, no instance is
    destroyed, [keys] holds the same keys with the key of the cycle moved
    last, and the vnode of the cycle carries the instance of the cached
    vnode. *)
Theorem hit_reuses_instance v opts w c :
  ledger_matches_store w ->
  cache_node (cache w) (cache_key v opts) = Some c ->
  exists w',
    render_cached v opts w = (Normal tt, w') /\
    cache w' = cache w /\
    destroyed_log w' = destroyed_log w /\
    keys w' ≡ₚ keys w /\
    last (keys w') = Some (cache_key v opts) /\
    held w' v = held w c /\
    (forall x, x <> vid v ->
               componentInstance w' !! x = componentInstance w !! x).
Proof.
  intros [Hnd Hiff] Hc. eexists. split; [apply (render_cached_hit _ _ _ _ Hc)|].
  world_fields. split; [reflexivity|]. split; [reflexivity|].
  split; [apply remove_perm, Hiff; congruence|].
  split; [apply last_snoc|].
  destruct (componentInstance w !! vid c) as [i|]; split.
  - apply lookup_insert_eq.
  - intros x Hx. apply lookup_insert_ne. congruence.
  - apply lookup_delete_eq.
  - intros x Hx. apply lookup_delete_ne. congruence.
Qed.

Lemma hit_reuses_instance_witness :
  let w := world scenario_prefix in
  let v := alloc 4 (component "B") in
  cache_node (cache w) "B" = Some (alloc 1 (component "B")) /\
  exists w',
    render_cached v {| Ctor_cid := 42; Ctor_options_name := Some "B";
                       opts_tag := Some "B" |} w = (Normal tt, w') /\
    cache w' = cache w /\
    keys w' ≡ₚ keys w.
Proof.
  intros w v.
  assert (Hinv : ledger_matches_store w)
    by (apply reachable_invariants, host_run_reachable, reach_created).
  assert (Hc : cache_node (cache w) "B" = Some (alloc 1 (component "B")))
    by (vm_compute; reflexivity).
  split; [exact Hc|].
  destruct (hit_reuses_instance v
              {| Ctor_cid := 42; Ctor_options_name := Some "B";
                 opts_tag := Some "B" |} w _ Hinv Hc)
    as (w' & H1 & H2 & _ & H4 & _).
  exists w'. split; [exact H1|]. split; [exact H2|exact H4].
Defined.

(** X4.  Recency: after a hit or a miss that returns, the key of the
    cycle is the last element of [keys] (unless the new entry of a miss
    was itself the victim of the capacity test, which takes an empty
    [keys] and a capacity below one). *)
Theorem render_cached_key_last v opts w w' :
  ledger_matches_store w ->
  render_cached v opts w = (Normal tt, w') ->
  keys w ≠ [] \/ over_capacity (max w) [cache_key v opts] = false ->
  last (keys w') = Some (cache_key v opts).
Proof.
  intros Hinv Hr Hcap.
  destruct (cache_node (cache w) (cache_key v opts)) as [c|] eqn:Hc.
  - rewrite (render_cached_hit _ _ _ _ Hc) in Hr. injection Hr as <-.
    world_fields. apply last_snoc.
  - assert (Hnotin : cache_key v opts ∉ keys w).
    { intros Hin. apply Hinv in Hin. congruence. }
    destruct (dead_slot_misses _ v opts w eq_refl Hc Hnotin)
      as (_ & _ & _ & H).
    destruct (H Hcap) as (o & w2 & Hr2 & _ & Hlast).
    rewrite Hr in Hr2. injection Hr2 as _ <-. exact Hlast.
Qed.

Lemma render_cached_key_last_witness :
  let w := world scenario_prefix in
  let v := alloc 4 (component "D") in
  let opts := {| Ctor_cid := 42; Ctor_options_name := Some "D";
                 opts_tag := Some "D" |} in
  keys w ≠ [] /\
  last (keys (snd (render_cached v opts w))) = Some "D".
Proof.
  intros w v opts.
  assert (Hinv : ledger_matches_store w)
    by (apply reachable_invariants, host_run_reachable, reach_created).
  assert (Hne : keys w ≠ []) by (vm_compute; discriminate).
  assert (Hr : render_cached v opts w = (Normal tt, snd (render_cached v opts w)))
    by (vm_compute; reflexivity).
  split; [exact Hne|].
  apply (render_cached_key_last v opts w _ Hinv Hr (or_introl Hne)).
Defined.

(** ** Pruning with a filter that accepts, and with a missing pattern *)

Lemma for_in_skip body names w :
  (forall k, k ∈ names -> body k w = (Normal tt, w)) ->
  for_in names body w = (Normal tt, w).
Proof.
  induction names as [|k names IH]; intros H; [reflexivity|]. simpl.
  unfold bind. rewrite (H k) by apply list_elem_of_here.
  apply IH. intros k' Hk'. apply H. now apply list_elem_of_further.
Qed.

(** X5.  Pruning with a filter that accepts the name of every cached
    entry does nothing: the call returns and the world is the same, no
    slot cleared, no key removed, no instance destroyed. *)
Theorem pruneCache_accepting filter w :
  (forall k c name,
      cache_node (cache w) k = Some c ->
      getComponentName (componentOptions c) = Some name ->
      filter name = true) ->
  pruneCache filter w = (Normal tt, w).
Proof.
  intros Hacc. rewrite pruneCache_eq. apply for_in_skip.
  intros k _. unfold rejected.
  destruct (cache_node (cache w) k) as [c|] eqn:Hc; [|reflexivity].
  destruct (getComponentName (componentOptions c)) as [name|] eqn:Hn;
    [|reflexivity].
  rewrite (Hacc _ _ _ Hc Hn), andb_false_r. reflexivity.
Qed.

Lemma pruneCache_accepting_witness :
  pruneCache (fun _ => true) (world scenario_prefix)
  = (Normal tt, world scenario_prefix).
Proof.
  apply (pruneCache_accepting (fun _ => true) (world scenario_prefix)).
  reflexivity.
Defined.

(** X6.  When [exclude] is taken away (the watcher is called with
    [undefined]) nothing is pruned, in any world. *)
Theorem watch_exclude_undefined w :
  watch_exclude PUndefined w = (Normal tt, w).
Proof.
  unfold watch_exclude. rewrite pruneCache_eq. apply for_in_skip.
  intros k _. unfold rejected.
  destruct (cache_node (cache w) k) as [c|]; [|reflexivity].
  destruct (getComponentName (componentOptions c)) as [name|]; [|reflexivity].
  cbn [matches negb]. rewrite andb_false_r. reflexivity.
Qed.

(** X7.  When [include] is taken away (the watcher is called with
    [undefined]) no name matches any more: if the call returns, every
    cached entry that has a non-empty name has been removed from [cache]
    and from [keys], and the entries without a name are all that is left
    in [keys]. *)
Theorem watch_include_undefined w w' :
  reachable w ->
  watch_include PUndefined w = (Normal tt, w') ->
  (forall k c, cache_node (cache w) k = Some c ->
               truthy_string (getComponentName (componentOptions c)) = true ->
               cache_node (cache w') k = None /\ k ∉ keys w') /\
  (forall k, k ∈ keys w' ->
             exists c, cache_node (cache w) k = Some c /\
                       truthy_string (getComponentName (componentOptions c))
                       = false).
Proof.
  intros Hreach Hp. unfold watch_include in Hp. rewrite pruneCache_eq in Hp.
  destruct (reachable_invariants _ Hreach) as [[Hnd Hiff] Hwf].
  destruct (prune_loop _ (_vnode w) (cache_keys (cache w))
              (own_keys_NoDup _ Hwf) w w' Hnd Hp) as (Hc & Hk & _ & _).
  assert (Hrej : forall k c, cache_node (cache w) k = Some c ->
            rejected (fun name => matches PUndefined name) (cache w) k
            = truthy_string (getComponentName (componentOptions c))).
  { intros k c Hnode. unfold rejected. rewrite Hnode.
    destruct (getComponentName (componentOptions c)) as [name|]; [|reflexivity].
    cbn [matches negb]. apply andb_true_r. }
  split.
  - intros k c Hnode Hname.
    assert (Hr : rejected (fun name => matches PUndefined name) (cache w) k = true)
      by (rewrite (Hrej _ _ Hnode); exact Hname).
    split.
    + unfold cache_node. rewrite Hc, Hr.
      rewrite bool_decide_eq_true_2 by (eapply rejected_visited, Hr).
      reflexivity.
    + rewrite Hk. intros [_ H]. apply H. split; [|exact Hr].
      eapply rejected_visited, Hr.
  - intros k Hin. apply Hk in Hin as [Hin Hnot].
    apply Hiff in Hin.
    destruct (cache_node (cache w) k) as [c|] eqn:Hnode; [|congruence].
    exists c. split; [reflexivity|].
    destruct (truthy_string (getComponentName (componentOptions c))) eqn:Hname;
      [|reflexivity].
    exfalso. apply Hnot.
    assert (Hr : rejected (fun name => matches PUndefined name) (cache w) k = true)
      by (rewrite (Hrej _ _ Hnode); exact Hname).
    split; [eapply rejected_visited, Hr|exact Hr].
Qed.

Lemma watch_include_undefined_witness :
  let w := world scenario_prefix in
  let w' := snd (watch_include PUndefined w) in
  reachable w /\
  watch_include PUndefined w = (Normal tt, w') /\
  cache_node (cache w') "A" = None /\ "A" ∉ keys w'.
Proof.
  intros w w'.
  assert (Hr : reachable w) by (apply host_run_reachable, reach_created).
  assert (Hp : watch_include PUndefined w = (Normal tt, w'))
    by (vm_compute; reflexivity).
  split; [exact Hr|]. split; [exact Hp|].
  apply (proj1 (watch_include_undefined w w' Hr Hp) "A"
           (alloc 0 (component "A"))); vm_compute; reflexivity.
Defined.

(** ** Teardown *)

Lemma teardown_loop ks :
  NoDup ks -> forall w1 w',
  NoDup (keys w1) ->
  for_in ks (fun k => pruneCacheEntry k None) w1 = (Normal tt, w') ->
  (forall k, cache_node (cache w') k =
             if bool_decide (k ∈ ks) then None else cache_node (cache w1) k) /\
  (forall k, k ∈ keys w' <-> k ∈ keys w1 /\ k ∉ ks) /\
  destroyed_log w' = destroyed_log w1 ++ omap (held_at w1) ks /\
  componentInstance w' = componentInstance w1.
Proof.
  induction 1 as [|k0 ks Hk0 Hnd IH]; intros w1 w' Hkeys; simpl.
  - intros [= <-]. rewrite app_nil_r. split; [|split; [|split]]; try reflexivity.
    intros k. split; [|tauto]. intros Hin. split; [exact Hin|].
    intros Hin'. inversion Hin'.
  - unfold bind.
    destruct (pruneCacheEntry k0 None w1) as [[[]|e] w2] eqn:Hp; [|discriminate].
    intros Hloop.
    destruct (pruneCacheEntry_normal _ _ _ _ Hp) as (Hc & Hk & Hi & Hl).
    assert (Hkeys2 : NoDup (keys w2)) by (rewrite Hk; now apply remove_NoDup).
    destruct (IH w2 w' Hkeys2 Hloop) as (IHc & IHk & IHl & IHi).
    split; [|split; [|split]].
    + intros k. rewrite IHc, Hc. destruct (decide (k = k0)) as [->|Hne].
      * rewrite cache_node_put_eq.
        rewrite (bool_decide_eq_true_2 (k0 ∈ k0 :: ks)) by apply list_elem_of_here.
        now destruct (bool_decide (k0 ∈ ks)).
      * rewrite cache_node_put_ne by congruence.
        assert (Hb : bool_decide (k ∈ k0 :: ks) = bool_decide (k ∈ ks)).
        { apply bool_decide_ext. rewrite elem_of_cons. tauto. }
        now rewrite Hb.
    + intros k. rewrite IHk, Hk, elem_of_cons. split.
      * intros [H1 H2]. split; [eapply remove_In, H1|].
        intros [->|H3]; [|contradiction]. now apply remove_not_In in H1.
      * intros [H1 H2]. split; [|tauto]. apply remove_In_ne; [|exact H1].
        intros ->. tauto.
    + rewrite IHl, Hl, <- app_assoc. f_equal.
      assert (Hrest : omap (held_at w2) ks = omap (held_at w1) ks).
      { apply omap_ext_in. intros k Hk'. unfold held_at, held.
        rewrite Hc, Hi, cache_node_put_ne; [reflexivity|].
        intros ->. contradiction. }
      rewrite Hrest. cbn. unfold held_at at 2.
      destruct (cache_node (cache w1) k0) as [c|]; [|reflexivity].
      cbn [must_destroy]. destruct (held w1 c); reflexivity.
    + congruence.
Qed.

(** X8.  A teardown that returns has emptied [keys], cleared every slot
    of [cache] and sent the destroy signal once to the instance of each
    entry that was cached, in enumeration order, whatever the current
    vnode is. *)
Theorem destroyed_clears w w' :
  reachable w ->
  destroyed w = (Normal tt, w') ->
  keys w' = [] /\
  (forall k, cache_node (cache w') k = None) /\
  destroyed_log w' =
    destroyed_log w ++ omap (held_at w) (cache_keys (cache w)).
Proof.
  intros Hreach Hd. unfold destroyed, bind, get in Hd.
  destruct (reachable_invariants _ Hreach) as [[Hnd Hiff] Hwf].
  destruct (teardown_loop (cache_keys (cache w)) (own_keys_NoDup _ Hwf)
              w w' Hnd Hd) as (Hc & Hk & Hl & _).
  assert (Hlive : forall k, cache_node (cache w) k <> None ->
                            k ∈ cache_keys (cache w)).
  { intros k Hk'. apply own_keys_elem, cache_get_names.
    unfold cache_node in Hk'. destruct (cache_get (cache w) k); congruence. }
  split; [|split].
  - assert (Hnone : forall k, k ∉ keys w').
    { intros k Hin. apply Hk in Hin as [Hin Hnot].
      apply Hnot, Hlive, Hiff, Hin. }
    destruct (keys w') as [|k l]; [reflexivity|].
    exfalso. apply (Hnone k), list_elem_of_here.
  - intros k. rewrite Hc. case_bool_decide as Hin; [reflexivity|].
    destruct (cache_node (cache w) k) eqn:E; [|reflexivity].
    exfalso. apply Hin, Hlive. congruence.
  - exact Hl.
Qed.

Lemma destroyed_clears_witness :
  let w := world scenario_prefix in
  let w' := snd (destroyed w) in
  reachable w /\ destroyed w = (Normal tt, w') /\ keys w' = [] /\
  destroyed_log w' = destroyed_log w ++ omap (held_at w) (cache_keys (cache w)).
Proof.
  intros w w'.
  assert (Hr : reachable w) by (apply host_run_reachable, reach_created).
  assert (Hd : destroyed w = (Normal tt, w')) by (vm_compute; reflexivity).
  destruct (destroyed_clears w w' Hr Hd) as (H1 & _ & H3).
  split; [exact Hr|]. split; [exact Hd|]. split; [exact H1|exact H3].
Defined.

(** A loop that raises has run its body to the end on the names before
    the one at which it raises, and not at all on those after it. *)
Lemma for_in_raise names : forall body w e w',
  for_in names body w = (Throw e, w') ->
  exists done k rest w1,
    names = done ++ k :: rest /\
    for_in done body w = (Normal tt, w1) /\
    body k w1 = (Throw e, w').
Proof.
  induction names as [|k names IH]; intros body w e w'; simpl.
  - discriminate.
  - unfold bind. destruct (body k w) as [[[]|e1] w1] eqn:Hb.
    + intros H. destruct (IH _ _ _ _ H) as (done & k' & rest & w2 & -> & Hd & Hb').
      exists (k :: done), k', rest, w2. split; [reflexivity|].
      split; [|exact Hb']. simpl. unfold bind. now rewrite Hb.
    + intros [= <- <-]. exists [], k, names, w.
      split; [reflexivity|]. split; [reflexivity|exact Hb].
Qed.

(** X9.  A teardown that raises stops at the entry whose destruction
    fails.  That entry is a cached vnode whose instance raises in
    [$destroy], or which has no instance; it is still cached and still
    in [keys] afterwards.  The entries enumerated before it are cleared
    and out of [keys], their instances destroyed in order; the entries
    enumerated after it are as they were. *)
Theorem destroyed_raise_keeps_entry w e w' :
  reachable w ->
  destroyed w = (Throw e, w') ->
  exists done k rest c,
    cache_keys (cache w) = done ++ k :: rest /\
    cache_node (cache w) k = Some c /\
    match held w c with
    | Some i => destroy_raises i = true /\ e = DestroyError (iid i)
    | None => e = TypeError
    end /\
    cache_node (cache w') k = Some c /\ k ∈ keys w' /\
    (forall k', k' ∈ done ->
                cache_node (cache w') k' = None /\ k' ∉ keys w') /\
    (forall k', k' ∈ rest ->
                cache_node (cache w') k' = cache_node (cache w) k' /\
                (k' ∈ keys w' <-> k' ∈ keys w)) /\
    destroyed_log w' =
      destroyed_log w ++ omap (held_at w) done ++ option_list (held w c).
Proof.
  intros Hreach Hd.
  destruct (reachable_invariants _ Hreach) as [[Hnd Hiff] Hwf].
  unfold destroyed, bind, get in Hd.
  destruct (for_in_raise _ _ _ _ _ Hd) as (done & k & rest & w1 & Hsplit & Hdone & Hp).
  pose proof (own_keys_NoDup _ Hwf) as Hnames.
  fold (cache_keys (cache w)) in Hnames. rewrite Hsplit in Hnames.
  apply NoDup_app in Hnames as (Hnd_done & Hdisj & Hnd_rest).
  apply NoDup_cons in Hnd_rest as (Hk_rest & _).
  assert (Hk_done : k ∉ done).
  { intros Hin. apply (Hdisj k Hin), list_elem_of_here. }
  destruct (teardown_loop done Hnd_done w w1 Hnd Hdone) as (Hc & Hk & Hl & Hi).
  assert (Hnode1 : cache_node (cache w1) k = cache_node (cache w) k).
  { rewrite Hc. now rewrite bool_decide_eq_false_2. }
  rewrite pruneCacheEntry_eq, Hnode1 in Hp.
  destruct (cache_node (cache w) k) as [c|] eqn:Hnode; [|discriminate].
  cbn [must_destroy] in Hp.
  assert (Hheld : held w1 c = held w c) by (unfold held; now rewrite Hi).
  rewrite Hheld in Hp.
  assert (Hw' : cache w' = cache w1 /\ keys w' = keys w1 /\
                destroyed_log w' = destroyed_log w1 ++ option_list (held w c) /\
                match held w c with
                | Some i => destroy_raises i = true /\ e = DestroyError (iid i)
                | None => e = TypeError
                end).
  { destruct (held w c) as [i|].
    - destruct (destroy_raises i); [|discriminate].
      injection Hp as <- <-. repeat split.
    - injection Hp as <- <-. cbn. rewrite app_nil_r. repeat split. }
  destruct Hw' as (Hcache & Hkeys & Hlog & Herr).
  exists done, k, rest, c.
  split; [exact Hsplit|]. split; [exact Hnode|]. split; [exact Herr|].
  split; [now rewrite Hcache, Hnode1|].
  split.
  { rewrite Hkeys. apply Hk. split; [|exact Hk_done].
    apply Hiff. congruence. }
  split; [|split].
  - intros k' Hin. rewrite Hcache, Hkeys, Hc, Hk.
    rewrite bool_decide_eq_true_2 by exact Hin. split; [reflexivity|tauto].
  - intros k' Hin.
    assert (Hnot : k' ∉ done).
    { intros Hin'. apply (Hdisj k' Hin'), list_elem_of_further, Hin. }
    rewrite Hcache, Hkeys, Hc, Hk.
    rewrite bool_decide_eq_false_2 by exact Hnot. split; [reflexivity|tauto].
  - rewrite Hlog, Hl, <- app_assoc. reflexivity.
Qed.

Lemma destroyed_raise_keeps_entry_witness :
  let w := world (host_run (host_created PUndefined PUndefined MaxUndefined)
                    [cycle "A"; Cycle (Some (component "B")) true; cycle "C"]) in
  let w' := snd (destroyed w) in
  reachable w /\
  destroyed w = (Throw (DestroyError 1), w') /\
  cache_keys (cache w) = ["A"; "B"; "C"] /\
  keys w' = ["B"; "C"] /\
  exists done k rest c,
    cache_keys (cache w) = done ++ k :: rest /\
    cache_node (cache w) k = Some c /\
    match held w c with
    | Some i => destroy_raises i = true /\ DestroyError 1 = DestroyError (iid i)
    | None => DestroyError 1 = TypeError
    end /\
    cache_node (cache w') k = Some c /\ k ∈ keys w'.
Proof.
  intros w w'.
  assert (Hr : reachable w) by (apply host_run_reachable, reach_created).
  assert (Hd : destroyed w = (Throw (DestroyError 1), w'))
    by (vm_compute; reflexivity).
  split; [exact Hr|]. split; [exact Hd|].
  split; [vm_compute; reflexivity|]. split; [vm_compute; reflexivity|].
  destruct (destroyed_raise_keeps_entry w _ _ Hr Hd)
    as (done & k & rest & c & H1 & H2 & H3 & H4 & H5 & _).
  exists done, k, rest, c. repeat split; assumption.
Defined.

(** ** What the cache object keeps *)

Lemma cache_get_put_stays c k k' v :
  cache_get c k <> None -> cache_get (cache_put c k' v) k <> None.
Proof.
  rewrite !cache_get_names, cache_put_names.
  destruct (bool_decide (k' ∈ map fst c)); [auto|].
  intros H. apply elem_of_app. auto.
Qed.

(** X10.  A property of the cache object is never deleted: whatever a
    render cycle, a filter change or the teardown does, and however it
    ends, a key that has a slot keeps it (an evicted key keeps a [null]
    slot), so the object grows with every new key, whatever [max] is. *)
Theorem cache_property_stays k w :
  cache_get (cache w) k <> None ->
  (forall v, cache_get (cache (snd (render v w))) k <> None) /\
  (forall val, cache_get (cache (snd (watch_include val w))) k <> None) /\
  (forall val, cache_get (cache (snd (watch_exclude val w))) k <> None) /\
  cache_get (cache (snd (destroyed w))) k <> None.
Proof.
  intros Hk.
  pose proof (fun c k' v => cache_get_put_stays c k k' v) as Hput.
  split; [|split; [|split]].
  - intros v. destruct (render v w) as [o w'] eqn:E.
    apply (render_cache_property (fun c => cache_get c k <> None) Hput
             _ _ _ _ Hk E).
  - intros val. destruct (watch_include val w) as [o w'] eqn:E.
    apply (pruneCache_cache_property (fun c => cache_get c k <> None) Hput
             _ _ _ _ Hk E).
  - intros val. destruct (watch_exclude val w) as [o w'] eqn:E.
    apply (pruneCache_cache_property (fun c => cache_get c k <> None) Hput
             _ _ _ _ Hk E).
  - destruct (destroyed w) as [o w'] eqn:E.
    apply (destroyed_cache_property (fun c => cache_get c k <> None) Hput
             _ _ _ Hk E).
Qed.

Lemma cache_property_stays_witness :
  cache_get (cache (world scenario_prefix)) "A" <> None /\
  cache_get (cache (snd (destroyed (world scenario_prefix)))) "A" <> None.
Proof.
  assert (H : cache_get (cache (world scenario_prefix)) "A" <> None)
    by (vm_compute; discriminate).
  split; [exact H|].
  apply (cache_property_stays "A" (world scenario_prefix) H).
Defined.

(** ** Edges of the capacity test *)

(** X11.  With a capacity below one (the strings ["0"] and ["-1"], a
    negative number) the first cached render of a component raises a
    TypeError: the vnode just stored is the oldest key, it is not exempt
    because there is no current vnode yet, and it has no instance to
    destroy.  The vnode stays stored. *)
Theorem first_miss_below_one_raises inc exc m n v opts :
  capacity m = Some n -> (n < 1)%Z ->
  componentOptions v = Some opts ->
  cacheable inc exc (getComponentName (Some opts)) = true ->
  render (Some v) (created inc exc m)
  = (Throw TypeError, stored (cache_key v opts) v (created inc exc m)).
Proof.
  intros Hcap Hn Hco Hc.
  rewrite render_eq, Hco. cbn [include exclude created].
  rewrite cacheable_not_cached in Hc. apply negb_true_iff in Hc. rewrite Hc.
  rewrite render_cached_miss by reflexivity. cbv zeta.
  change (keys (stored (cache_key v opts) v (created inc exc m)))
    with [cache_key v opts].
  rewrite over_capacity_capacity. cbn [max created]. rewrite Hcap.
  cbn [length]. destruct (Z.ltb_spec n (Z.of_nat 1)) as [_|Hge]; [|lia].
  change (default "undefined" (head [cache_key v opts])) with (cache_key v opts).
  rewrite pruneCacheEntry_eq.
  change (cache (stored (cache_key v opts) v (created inc exc m)))
    with (cache_put [] (cache_key v opts) (Some v)).
  rewrite cache_node_put_eq. cbn [_vnode created must_destroy].
  unfold held. cbn. rewrite lookup_empty. reflexivity.
Qed.

Lemma first_miss_below_one_raises_witness :
  capacity (MaxString "0") = Some 0%Z /\
  fst (render (Some (alloc 0 (component "A")))
         (created PUndefined PUndefined (MaxString "0")))
  = Throw TypeError.
Proof.
  split; [reflexivity|].
  rewrite (first_miss_below_one_raises PUndefined PUndefined (MaxString "0") 0
             (alloc 0 (component "A"))
             {| Ctor_cid := 42; Ctor_options_name := Some "A";
                opts_tag := Some "A" |}
             eq_refl eq_refl eq_refl eq_refl).
  reflexivity.
Defined.

(** X12.  An eviction spares the instance of an entry that has the tag
    of the current vnode: when a miss goes over capacity and the oldest
    entry has that tag, the entry is removed from [cache] and from [keys]
    all the same, but the destroy signal is not sent, and the instance
    stays where it is. *)
Theorem eviction_spares_current_tag v opts w k0 c cur :
  cache_node (cache w) (cache_key v opts) = None ->
  over_capacity (max w) (keys w ++ [cache_key v opts]) = true ->
  head (keys w) = Some k0 ->
  k0 <> cache_key v opts ->
  cache_node (cache w) k0 = Some c ->
  _vnode w = Some cur -> tag c = tag cur ->
  exists w',
    render_cached v opts w = (Normal tt, w') /\
    cache_node (cache w') k0 = None /\
    keys w' = tail (keys w) ++ [cache_key v opts] /\
    destroyed_log w' = destroyed_log w /\
    held w' c = held w c.
Proof.
  intros Hmiss Hover Hhd Hne Hc Hcur Htag.
  eexists. rewrite (render_cached_miss _ _ _ Hmiss). cbv zeta.
  change (keys (stored (cache_key v opts) v w))
    with (keys w ++ [cache_key v opts]).
  rewrite Hover.
  assert (Hhd' : head (keys w ++ [cache_key v opts]) = Some k0).
  { destruct (keys w); [discriminate|exact Hhd]. }
  rewrite Hhd'. change (default "undefined" (Some k0)) with k0.
  rewrite pruneCacheEntry_eq.
  change (cache (stored (cache_key v opts) v w))
    with (cache_put (cache w) (cache_key v opts) (Some v)).
  rewrite cache_node_put_ne by congruence. rewrite Hc, Hcur.
  cbn [must_destroy]. rewrite bool_decide_eq_true_2 by exact Htag.
  cbn [negb]. split; [reflexivity|]. world_fields.
  split; [apply cache_node_put_eq|].
  split; [|split; reflexivity].
  apply remove_head_app; [exact Hhd'|]. destruct (keys w); discriminate.
Qed.

Lemma eviction_spares_current_tag_witness :
  let w := world (host_run (host_created PUndefined PUndefined (MaxNumber 1))
                    [cycle "A"]) in
  let v := alloc 1 (component "B") in
  let opts := {| Ctor_cid := 42; Ctor_options_name := Some "B";
                 opts_tag := Some "B" |} in
  _vnode w = Some (alloc 0 (component "A")) /\
  exists w',
    render_cached v opts w = (Normal tt, w') /\
    cache_node (cache w') "A" = None /\
    keys w' = tail (keys w) ++ ["B"] /\
    destroyed_log w' = destroyed_log w /\
    held w' (alloc 0 (component "A")) = held w (alloc 0 (component "A")).
Proof.
  intros w v opts. split; [reflexivity|].
  apply (eviction_spares_current_tag v opts w "A" (alloc 0 (component "A"))
           (alloc 0 (component "A")));
    first [reflexivity | discriminate].
Defined.

(** X13.  A safe integer given as [max] is the bound itself: the miss
    branch evicts exactly when [keys] holds more than that many keys (a
    zero [max] sets no bound). *)
Theorem numeric_max_is_the_bound z ks (Hz : JsLib.SafeInteger z) :
  over_capacity (MaxNumber z) ks =
  negb (z =? 0)%Z && (z <? Z.of_nat (length ks))%Z.
Proof.
  unfold over_capacity. cbn [truthy_max]. now rewrite parseInt_number.
Qed.

Lemma numeric_max_is_the_bound_witness :
  JsLib.SafeInteger 2 /\
  over_capacity (MaxNumber 2) ["A"; "B"; "C"] = true /\
  over_capacity (MaxNumber 2) ["A"; "B"] = false.
Proof.
  split; [reflexivity|].
  rewrite !(numeric_max_is_the_bound 2 _ eq_refl). split; reflexivity.
Defined.

(** ** One render cycle *)

Lemma remove_length_ge arr item :
  length arr <= S (length (JsLib.remove arr item)).
Proof.
  induction arr as [|y arr IH]; simpl; [lia|].
  destruct (String.eqb y item); simpl; lia.
Qed.

Lemma pruneCacheEntry_one_destroy k cur w :
  (exists l, destroyed_log (snd (pruneCacheEntry k cur w))
             = destroyed_log w ++ l /\ length l <= 1) /\
  length (keys w) <= S (length (keys (snd (pruneCacheEntry k cur w)))) /\
  length (keys (snd (pruneCacheEntry k cur w))) <= length (keys w).
Proof.
  rewrite pruneCacheEntry_eq.
  pose proof (remove_length_ge (keys w) k) as Hge.
  pose proof (remove_length_le (keys w) k) as Hle.
  destruct (cache_node (cache w) k) as [c|];
    [destruct (must_destroy (Some c) cur);
     [destruct (held w c) as [i|]; [destruct (destroy_raises i)|]|]|];
    cbn [snd]; world_fields; (split; [|lia]);
    first [ exists [i]; split; [reflexivity|cbn; lia]
          | exists []; split; [now rewrite app_nil_r|cbn; lia] ].
Qed.

(** X14.  Whatever its outcome, one render cycle sends at most one
    destroy signal, never makes [keys] shorter and makes it longer by one
    key at most. *)
Theorem render_one_step v w :
  (exists l, destroyed_log (snd (render v w)) = destroyed_log w ++ l /\
             length l <= 1) /\
  length (keys w) <= length (keys (snd (render v w))) /\
  length (keys (snd (render v w))) <= S (length (keys w)).
Proof.
  assert (Hsame : (exists l, destroyed_log w = destroyed_log w ++ l /\
                             length l <= 1) /\
                  length (keys w) <= length (keys w) /\
                  length (keys w) <= S (length (keys w))).
  { split; [exists []; split; [now rewrite app_nil_r|cbn; lia]|lia]. }
  rewrite render_eq.
  destruct v as [x|]; [|exact Hsame].
  destruct (componentOptions x) as [opts|]; [|exact Hsame].
  destruct (not_cached _ _ _); [exact Hsame|].
  assert (Hrc : (exists l, destroyed_log (snd (render_cached x opts w))
                           = destroyed_log w ++ l /\ length l <= 1) /\
                length (keys w) <= length (keys (snd (render_cached x opts w))) /\
                length (keys (snd (render_cached x opts w))) <= S (length (keys w))).
  { destruct (cache_node (cache w) (cache_key x opts)) as [c|] eqn:Hc.
    - rewrite (render_cached_hit _ _ _ _ Hc). cbn [snd]. world_fields.
      pose proof (remove_length_ge (keys w) (cache_key x opts)).
      pose proof (remove_length_le (keys w) (cache_key x opts)).
      rewrite length_app. cbn [length].
      split; [exists []; split; [now rewrite app_nil_r|cbn; lia]|lia].
    - rewrite (render_cached_miss _ _ _ Hc). cbv zeta.
      set (w1 := stored (cache_key x opts) x w).
      assert (Hlen : length (keys w1) = S (length (keys w))).
      { unfold w1. world_fields. rewrite length_app. cbn. lia. }
      assert (Hlog : destroyed_log w1 = destroyed_log w) by reflexivity.
      destruct (over_capacity _ _).
      + destruct (pruneCacheEntry_one_destroy
                    (default "undefined" (head (keys w1))) (_vnode w) w1)
          as ((l & Hl & Hlen1) & Hge & Hle).
        destruct (pruneCacheEntry _ _ w1) as [[[]|e] w2]; cbn [snd] in *;
          unfold flagged; cbn [keys destroyed_log set_keepAlive];
          rewrite ?Hl, ?Hlog;
          (split; [exists l; split; [reflexivity|exact Hlen1]|lia]).
      + cbn [snd]. unfold flagged. cbn [keys destroyed_log set_keepAlive].
        rewrite Hlen, Hlog.
        split; [exists []; split; [now rewrite app_nil_r|cbn; lia]|lia]. }
  destruct (render_cached x opts w) as [[[]|e] w1]; exact Hrc.
Qed.

(** ** Keys derived from the component *)

Lemma string_of_uint_all_digits d :
  all_digits (NilEmpty.string_of_uint d) = true.
Proof. induction d; cbn; auto. Qed.

Lemma number_to_string_all_digits n :
  all_digits (JsLib.number_to_string (Z.of_nat n)) = true.
Proof.
  unfold JsLib.number_to_string.
  destruct (Z.of_nat n) as [|p|p] eqn:E; [reflexivity| |lia].
  cbn [Z.to_int NilZero.string_of_int].
  rewrite (nilzero_string_of_uint _ (to_uint_not_nil p)).
  apply string_of_uint_all_digits.
Qed.

Lemma number_to_string_inj z1 z2 :
  JsLib.number_to_string z1 = JsLib.number_to_string z2 -> z1 = z2.
Proof.
  intros H. pose proof (parseInt_string_digits z1) as H1.
  pose proof (parseInt_string_digits z2) as H2.
  rewrite H in H1. congruence.
Qed.

Lemma digits_prefix_unique d1 : forall d2 r1 r2,
  all_digits d1 = true -> all_digits d2 = true ->
  no_leading_digit r1 = true -> no_leading_digit r2 = true ->
  (d1 ++ r1)%string = (d2 ++ r2)%string -> d1 = d2 /\ r1 = r2.
Proof.
  induction d1 as [|c d1 IH]; intros d2 r1 r2 H1 H2 Hr1 Hr2 E.
  - destruct d2 as [|c2 d2]; [auto|]. exfalso.
    change ("" ++ r1)%string with r1 in E.
    change (String c2 d2 ++ r2)%string with (String c2 (d2 ++ r2)%string) in E.
    subst r1. cbn in Hr1, H2. apply andb_true_iff in H2 as [H2 _].
    rewrite H2 in Hr1. discriminate.
  - change (String c d1 ++ r1)%string with (String c (d1 ++ r1)%string) in E.
    cbn in H1. apply andb_true_iff in H1 as [Hc H1].
    destruct d2 as [|c2 d2].
    + exfalso. change ("" ++ r2)%string with r2 in E. subst r2.
      cbn in Hr2. rewrite Hc in Hr2. discriminate.
    + change (String c2 d2 ++ r2)%string with (String c2 (d2 ++ r2)%string) in E.
      injection E as -> E. cbn in H2. apply andb_true_iff in H2 as [_ H2].
      destruct (IH _ _ _ H1 H2 Hr1 Hr2 E) as [-> ->]. auto.
Qed.

Lemma tag_suffix_no_leading_digit opts :
  no_leading_digit (tag_suffix opts) = true.
Proof. unfold tag_suffix. destruct (truthy_string _); reflexivity. Qed.

Lemma cache_key_fallback v opts :
  key v = None ->
  cache_key v opts
  = (JsLib.number_to_string (Z.of_nat (Ctor_cid opts)) ++ tag_suffix opts)%string.
Proof. intros H. unfold cache_key, tag_suffix. now rewrite H. Qed.

(** X15.  Keys derived from the component never collide: two vnodes
    without an explicit key have the same cache key only if their
    components have the same [cid] and the same tag (an empty tag and a
    missing one counting as the same). *)
Theorem fallback_key_injective v1 v2 o1 o2 :
  key v1 = None -> key v2 = None ->
  cache_key v1 o1 = cache_key v2 o2 ->
  Ctor_cid o1 = Ctor_cid o2 /\
  truthy_string (opts_tag o1) = truthy_string (opts_tag o2) /\
  (truthy_string (opts_tag o1) = true -> opts_tag o1 = opts_tag o2).
Proof.
  intros K1 K2 E.
  rewrite (cache_key_fallback _ _ K1), (cache_key_fallback _ _ K2) in E.
  apply digits_prefix_unique in E as [Ecid Etag];
    try apply number_to_string_all_digits;
    try apply tag_suffix_no_leading_digit.
  apply number_to_string_inj, Nat2Z.inj in Ecid. split; [exact Ecid|].
  unfold tag_suffix in Etag.
  destruct (opts_tag o1) as [[|c1 t1]|], (opts_tag o2) as [[|c2 t2]|];
    cbn in Etag |- *; try discriminate; try (split; [reflexivity|congruence]).
  split; [reflexivity|]. intros _. injection Etag as -> ->. reflexivity.
Qed.

Lemma fallback_key_injective_witness :
  let v1 := {| vid := 0; key := None; tag := None; componentOptions := None |} in
  let v2 := {| vid := 1; key := None; tag := None; componentOptions := None |} in
  let o := {| Ctor_cid := 7; Ctor_options_name := None; opts_tag := Some "x" |} in
  cache_key v1 o = cache_key v2 o /\ Ctor_cid o = Ctor_cid o.
Proof.
  intros v1 v2 o. split; [reflexivity|].
  apply (fallback_key_injective v1 v2 o o eq_refl eq_refl eq_refl).
Defined.

(** ** Runs of the host that do not raise *)

Lemma ready_ext w w' :
  cache w' = cache w -> keys w' = keys w -> max w' = max w ->
  componentInstance w' = componentInstance w ->
  ready w -> ready w'.
Proof.
  intros Hc Hk Hm Hi (H1 & H2 & H3 & H4). unfold ready, held in *.
  rewrite Hm, Hc, Hi. split; [|auto].
  eapply ledger_matches_store_ext; eauto.
Qed.

Lemma pruneCacheEntry_ready k cur w :
  ready w -> exists w', pruneCacheEntry k cur w = (Normal tt, w') /\ ready w'.
Proof.
  intros (H1 & H2 & H3 & H4).
  assert (Hn : exists w', pruneCacheEntry k cur w = (Normal tt, w')).
  { rewrite pruneCacheEntry_eq.
    destruct (cache_node (cache w) k) as [c|] eqn:Hc; [|eauto].
    destruct (must_destroy (Some c) cur); [|eauto].
    specialize (H3 _ _ Hc). destruct (held w c) as [i|] eqn:Hi; [|congruence].
    rewrite (H4 _ _ Hi). eauto. }
  destruct Hn as [w' Hp]. exists w'. split; [exact Hp|].
  destruct (pruneCacheEntry_normal _ _ _ _ Hp) as (Hc & _ & Hi & _).
  split; [eapply pruneCacheEntry_matches; eauto|].
  split; [now rewrite (pruneCacheEntry_max _ _ _ _ _ Hp)|].
  unfold held. rewrite Hc, Hi. split; [|exact H4].
  intros k' c' Hk'. apply cache_node_put_None in Hk' as [_ Hk']. eauto.
Qed.

Lemma for_in_returns (P : World -> Prop) body names :
  (forall k w, P w -> exists w', body k w = (Normal tt, w') /\ P w') ->
  forall w, P w -> exists w', for_in names body w = (Normal tt, w') /\ P w'.
Proof.
  intros Hbody. induction names as [|k names IH]; intros w HP; simpl.
  - exists w. auto.
  - unfold bind. destruct (Hbody k w HP) as (w1 & -> & HP1). now apply IH.
Qed.

Lemma pruneCache_ready filter w :
  ready w -> exists w', pruneCache filter w = (Normal tt, w') /\ ready w'.
Proof.
  intros Hr. rewrite pruneCache_eq. apply for_in_returns; [|exact Hr].
  intros k w1 Hr1. destruct (rejected filter (cache w1) k); [|eauto].
  now apply pruneCacheEntry_ready.
Qed.

Lemma destroyed_ready w :
  ready w -> exists w', destroyed w = (Normal tt, w') /\ ready w'.
Proof.
  intros Hr. unfold destroyed, bind, get. apply for_in_returns; [|exact Hr].
  intros k w1. apply pruneCacheEntry_ready.
Qed.

(** A cycle in a ready world returns; afterwards only the vnode of the
    cycle may be cached without an instance. *)
Lemma render_ready v w :
  ready w ->
  exists w', render v w = (Normal v, w') /\
    ledger_matches_store w' /\ max w' = max w /\
    (forall k c, cache_node (cache w') k = Some c ->
                 held w' c <> None \/
                 (v = Some c /\ componentOptions c <> None)) /\
    (forall x i, componentInstance w' !! x = Some i ->
                 destroy_raises i = false).
Proof.
  intros (H1 & H2 & H3 & H4). rewrite render_eq.
  assert (Hsame : exists w', (Normal v, w) = (Normal v, w') /\
    ledger_matches_store w' /\ max w' = max w /\
    (forall k c, cache_node (cache w') k = Some c ->
                 held w' c <> None \/
                 (v = Some c /\ componentOptions c <> None)) /\
    (forall x i, componentInstance w' !! x = Some i ->
                 destroy_raises i = false)).
  { exists w. split; [reflexivity|]. split; [exact H1|].
    split; [reflexivity|]. split; [|exact H4].
    intros k c Hk. left. eauto. }
  destruct v as [x|]; [|exact Hsame].
  destruct (componentOptions x) as [opts|] eqn:Hco; [|exact Hsame].
  destruct (not_cached _ _ _); [exact Hsame|]. clear Hsame.
  destruct (cache_node (cache w) (cache_key x opts)) as [c|] eqn:Hc.
  - rewrite (render_cached_hit _ _ _ _ Hc). eexists. split; [reflexivity|].
    split; [eapply render_cached_matches;
            [exact H1|apply (render_cached_hit _ _ _ _ Hc)]|].
    split; [reflexivity|].
    pose proof (H3 _ _ Hc) as Hheld.
    destruct (held w c) as [i|] eqn:Hi; [|congruence].
    world_fields. split.
    + intros k c' Hk. left.
      destruct (decide (vid c' = vid x)) as [->|Hne].
      * rewrite lookup_insert_eq. discriminate.
      * rewrite lookup_insert_ne by congruence. eauto.
    + intros y j. destruct (decide (y = vid x)) as [->|Hne].
      * rewrite lookup_insert_eq. intros [= <-]. eauto.
      * rewrite lookup_insert_ne by congruence. eauto.
  - rewrite (render_cached_miss _ _ _ Hc). cbv zeta.
    set (k := cache_key x opts) in *.
    pose proof (stored_matches k x w Hc H1) as Hst.
    assert (Hlive : forall k' c, cache_node (cache (stored k x w)) k' = Some c ->
              (k' = k /\ c = x) \/ (k' <> k /\ held w c <> None)).
    { intros k' c Hk'. world_fields.
      apply cache_node_put_Some in Hk' as [[-> ->]|[Hne Hk']]; eauto. }
    change (keys (stored k x w)) with (keys w ++ [k]).
    destruct (over_capacity (max w) (keys w ++ [k])) eqn:Hover.
    + assert (Hne : keys w ≠ []).
      { intros E. rewrite E, over_capacity_capacity in Hover.
        unfold usable_max in H2. destruct (capacity (max w)) as [n|];
          [|discriminate].
        apply Z.ltb_lt in Hover. apply Z.leb_le in H2. cbn in Hover. lia. }
      destruct (keys w) as [|k0 l] eqn:Hkeys; [congruence|].
      change (default "undefined" (head ((k0 :: l) ++ [k]))) with k0.
      assert (Hk0 : k0 <> k).
      { intros ->. assert (Hin : k ∈ keys w)
          by (rewrite Hkeys; apply list_elem_of_here).
        apply H1 in Hin. congruence. }
      assert (Hp : exists w2, pruneCacheEntry k0 (_vnode w) (stored k x w)
                              = (Normal tt, w2)).
      { rewrite pruneCacheEntry_eq.
        destruct (cache_node (cache (stored k x w)) k0) as [c|] eqn:Hc0;
          [|eauto].
        destruct (must_destroy (Some c) (_vnode w)); [|eauto].
        destruct (Hlive _ _ Hc0) as [[Hk' _]|[_ Hh]]; [congruence|].
        change (held (stored k x w) c) with (held w c).
        destruct (held w c) as [i|] eqn:Hi; [|congruence].
        rewrite (H4 _ _ Hi). eauto. }
      destruct Hp as [w2 Hp]. rewrite Hp. eexists. split; [reflexivity|].
      destruct (pruneCacheEntry_normal _ _ _ _ Hp) as (Hc2 & _ & Hi2 & _).
      split; [eapply ledger_matches_store_ext;
              [| |exact (pruneCacheEntry_matches _ _ _ _ _ Hst Hp)];
              reflexivity|].
      split; [cbn [flagged max set_keepAlive];
              now rewrite (pruneCacheEntry_max _ _ _ _ _ Hp)|].
      unfold flagged, held. cbn [cache componentInstance set_keepAlive].
      rewrite Hc2, Hi2. split; [|exact H4].
      intros k' c Hk'. apply cache_node_put_None in Hk' as [_ Hk'].
      destruct (Hlive _ _ Hk') as [[_ ->]|[_ Hh]]; [right|left; exact Hh].
      split; [reflexivity|congruence].
    + eexists. split; [reflexivity|].
      split; [eapply ledger_matches_store_ext; [| |exact Hst]; reflexivity|].
      split; [reflexivity|]. split; [|exact H4].
      intros k' c Hk'.
      destruct (Hlive _ _ Hk') as [[_ ->]|[_ Hh]]; [right|left; exact Hh].
      split; [reflexivity|congruence].
Qed.

Lemma host_step_ready h op :
  ready (world h) -> well_behaved op = true ->
  op_returns h op = true /\ ready (world (host_step h op)).
Proof.
  intros Hr Hop. destruct op as [child raises|p|p|m|v|];
    cbn [op_returns host_step world].
  - destruct (render_ready (option_map (alloc (next_vid h)) child) _ Hr)
      as (w' & -> & Hl & Hm & Hlive & Hst).
    split; [reflexivity|]. cbn [world fst].
    cbn in Hop. apply negb_true_iff in Hop. subst raises.
    destruct Hr as (_ & Hmax & _ & _).
    assert (Hmax' : usable_max (max w') = true) by congruence.
    destruct (option_map (alloc (next_vid h)) child) as [x|].
    + unfold instantiate.
      destruct (componentOptions x) as [o|] eqn:Hco.
      * destruct (componentInstance (set_vnode (Some x) w') !! vid x) eqn:Hx.
        -- split; [exact Hl|]. split; [exact Hmax'|]. split; [|exact Hst].
           intros k c Hk. destruct (Hlive _ _ Hk) as [Hh|[[= <-] _]];
             [exact Hh|]. unfold held. cbn in Hx |- *. congruence.
        -- split; [exact Hl|]. split; [exact Hmax'|].
           unfold held. cbn [cache componentInstance set_componentInstance
                             set_vnode]. split.
           ++ intros k c Hk.
              destruct (decide (vid c = vid x)) as [->|Hne].
              ** rewrite lookup_insert_eq. discriminate.
              ** rewrite lookup_insert_ne by congruence.
                 destruct (Hlive _ _ Hk) as [Hh|[[= <-] _]];
                   [exact Hh|congruence].
           ++ intros y j. destruct (decide (y = vid x)) as [->|Hne].
              ** rewrite lookup_insert_eq. now intros [= <-].
              ** rewrite lookup_insert_ne by congruence. eauto.
      * split; [exact Hl|]. split; [exact Hmax'|]. split; [|exact Hst].
        intros k c Hk. destruct (Hlive _ _ Hk) as [Hh|[[= <-] Hc]];
          [exact Hh|congruence].
    + split; [exact Hl|]. split; [exact Hmax'|]. split; [|exact Hst].
      intros k c Hk. destruct (Hlive _ _ Hk) as [Hh|[[=] _]]. exact Hh.
  - assert (Hr' : ready (set_include p (world h)))
      by (eapply ready_ext; [| | | |exact Hr]; reflexivity).
    destruct (pruneCache_ready (fun name => matches p name) _ Hr')
      as (w' & Hp & Hw').
    unfold watch_include. rewrite Hp. auto.
  - assert (Hr' : ready (set_exclude p (world h)))
      by (eapply ready_ext; [| | | |exact Hr]; reflexivity).
    destruct (pruneCache_ready (fun name => negb (matches p name)) _ Hr')
      as (w' & Hp & Hw').
    unfold watch_exclude. rewrite Hp. auto.
  - split; [reflexivity|]. destruct Hr as (H1 & _ & H3 & H4).
    split; [exact H1|]. split; [exact Hop|]. auto.
  - split; [reflexivity|]. eapply ready_ext; [| | | |exact Hr]; reflexivity.
  - destruct (destroyed_ready _ Hr) as (w' & Hp & Hw'). rewrite Hp. auto.
Qed.

Lemma host_run_ready ops : forall h,
  ready (world h) -> forallb well_behaved ops = true ->
  run_returns h ops = true /\ ready (world (host_run h ops)).
Proof.
  induction ops as [|op ops IH]; intros h Hr Hops; [auto|].
  cbn in Hops. apply andb_true_iff in Hops as [Hop Hops].
  destruct (host_step_ready h op Hr Hop) as [Hret Hr'].
  destruct (IH _ Hr' Hops) as [Hrun Hfin].
  cbn [run_returns host_run fold_left]. rewrite Hret. auto.
Qed.

(** X16.  The component does not raise by itself: in a run of the host
    from the creation of the component in which no [$destroy] raises and
    [max] never sets a capacity below one, every render cycle, filter
    change and teardown returns normally; in particular no eviction or
    prune ever reaches a cached vnode without an instance. *)
Theorem well_behaved_run_returns inc exc m ops :
  usable_max m = true ->
  forallb well_behaved ops = true ->
  run_returns (host_created inc exc m) ops = true.
Proof.
  intros Hm Hops.
  apply (host_run_ready ops (host_created inc exc m)); [|exact Hops].
  split; [|split; [exact Hm|split]].
  - split; cbn; [constructor|].
    intros k. split; [intros H; inversion H|congruence].
  - intros k c H. discriminate.
  - intros x i H. cbn in H. rewrite lookup_empty in H. discriminate.
Qed.

Lemma well_behaved_run_returns_witness :
  usable_max (MaxNumber 2) = true /\
  run_returns (host_created PUndefined PUndefined (MaxNumber 2))
    [cycle "A"; cycle "B"; cycle "C"; ChangeExclude (PString "B");
     cycle "A"; Teardown] = true.
Proof.
  split; [reflexivity|].
  apply (well_behaved_run_returns PUndefined PUndefined (MaxNumber 2));
    reflexivity.
Defined.

(** ** The [LRUCache] class of the notes *)

Section LRUCacheFacts.
Context {K V : Type} `{EqDecision K}.
Implicit Types (m : list (K * V)) (c : LRUCache.t (K := K) (V := V)).

Lemma map_has_elem m k : LRUCache.map_has m k = true <-> k ∈ map fst m.
Proof.
  induction m as [|[k' v'] m IH]; simpl.
  - split; [discriminate|intros Hin; inversion Hin].
  - rewrite orb_true_iff, bool_decide_eq_true, IH, elem_of_cons.
    split; intros [->|Hin]; auto.
Qed.

Lemma map_has_false m k : LRUCache.map_has m k = false <-> k ∉ map fst m.
Proof.
  rewrite <- map_has_elem. destruct (LRUCache.map_has m k); split; congruence.
Qed.

Lemma map_delete_absent m k : k ∉ map fst m -> LRUCache.map_delete m k = m.
Proof.
  induction m as [|[k' v'] m IH]; simpl; [reflexivity|].
  rewrite elem_of_cons. intros Hk. destruct (decide (k' = k)) as [->|Hne].
  - tauto.
  - f_equal. tauto.
Qed.

Lemma map_delete_keys m k k' :
  k' ∈ map fst (LRUCache.map_delete m k) -> k' ∈ map fst m.
Proof.
  induction m as [|[k0 v0] m IH]; simpl; [auto|].
  destruct (decide (k0 = k)); simpl; rewrite ?elem_of_cons; tauto.
Qed.

Lemma map_delete_keeps m k k' :
  k' <> k -> k' ∈ map fst m -> k' ∈ map fst (LRUCache.map_delete m k).
Proof.
  intros Hne. induction m as [|[k0 v0] m IH]; simpl; [auto|].
  destruct (decide (k0 = k)) as [->|Hk0]; simpl; rewrite ?elem_of_cons.
  - intros [->|Hin]; [congruence|exact Hin].
  - intros [->|Hin]; auto.
Qed.

Lemma map_delete_NoDup m k :
  NoDup (map fst m) ->
  NoDup (map fst (LRUCache.map_delete m k)) /\
  k ∉ map fst (LRUCache.map_delete m k).
Proof.
  induction m as [|[k0 v0] m IH]; simpl.
  - intros _. split; [constructor|apply not_elem_of_nil].
  - intros Hnd. apply NoDup_cons in Hnd as [Hk0 Hnd].
    destruct (decide (k0 = k)) as [->|Hne]; [auto|].
    destruct (IH Hnd) as [IH1 IH2]. simpl. split.
    + constructor; [|exact IH1]. intros Hin. apply Hk0.
      eapply map_delete_keys, Hin.
    + rewrite elem_of_cons. intros [->|Hin]; [congruence|contradiction].
Qed.

Lemma map_delete_length m k :
  k ∈ map fst m -> S (length (LRUCache.map_delete m k)) = length m.
Proof.
  induction m as [|[k0 v0] m IH]; simpl; [intros Hin; inversion Hin|].
  destruct (decide (k0 = k)) as [->|Hne]; [reflexivity|].
  rewrite elem_of_cons. intros [->|Hin]; [congruence|]. simpl. now rewrite IH.
Qed.

Lemma map_set_new m k v :
  k ∉ map fst m -> LRUCache.map_set m k v = m ++ [(k, v)].
Proof.
  induction m as [|[k0 v0] m IH]; simpl; [reflexivity|].
  rewrite elem_of_cons. intros Hk. destruct (decide (k0 = k)) as [->|Hne].
  - tauto.
  - f_equal. tauto.
Qed.

Lemma map_get_last m k v :
  k ∉ map fst m -> LRUCache.map_get (m ++ [(k, v)]) k = Some v.
Proof.
  induction m as [|[k0 v0] m IH]; simpl.
  - intros _. now rewrite decide_True.
  - rewrite elem_of_cons. intros Hk.
    rewrite decide_False by (intros ->; tauto). tauto.
Qed.

(** What [set] leaves before the size test: the key is entered last. *)
Lemma set_entered k v c :
  LRUCache.well_formed c ->
  let m1 := if LRUCache.map_has (LRUCache._map c) k
            then LRUCache.map_delete (LRUCache._map c) k
            else LRUCache._map c in
  NoDup (map fst m1) /\ (k ∉ map fst m1) /\
  LRUCache.map_set m1 k v = m1 ++ [(k, v)] /\
  (forall k', k' ∈ map fst m1 -> k' ∈ LRUCache.keys_of c) /\
  length m1 <= length (LRUCache._map c) /\
  (k ∈ LRUCache.keys_of c -> S (length m1) = length (LRUCache._map c)).
Proof.
  intros Hwf m1. unfold LRUCache.well_formed, LRUCache.keys_of in *.
  destruct (LRUCache.map_has (LRUCache._map c) k) eqn:Hhas; subst m1.
  - destruct (map_delete_NoDup _ k Hwf) as [Hnd Hnot].
    apply map_has_elem in Hhas.
    pose proof (map_delete_length _ _ Hhas) as Hlen.
    split; [exact Hnd|]. split; [exact Hnot|].
    split; [now apply map_set_new|].
    split; [intros k'; apply map_delete_keys|]. split; [lia|auto].
  - apply map_has_false in Hhas.
    split; [exact Hwf|]. split; [exact Hhas|].
    split; [now apply map_set_new|]. split; [auto|]. split; [lia|].
    intros Hin. contradiction.
Qed.

(** X17.  [set] keeps the cache within its size: if the map has each key
    once and holds at most [maxSize] entries, it still does after
    [set]. *)
Theorem LRUCache_set_bounded k v c n :
  LRUCache.well_formed c ->
  LRUCache._maxSize c = Some n ->
  (Z.of_nat (length (LRUCache._map c)) <= n)%Z ->
  LRUCache.well_formed (LRUCache.set k v c) /\
  (Z.of_nat (length (LRUCache._map (LRUCache.set k v c))) <= n)%Z.
Proof.
  intros Hwf Hmax Hlen.
  destruct (set_entered k v c Hwf) as (Hnd & Hnot & Hset & _ & Hle & _).
  unfold LRUCache.set. rewrite Hset, Hmax.
  set (m1 := if LRUCache.map_has (LRUCache._map c) k
             then LRUCache.map_delete (LRUCache._map c) k
             else LRUCache._map c) in *.
  assert (Hnd2 : NoDup (map fst (m1 ++ [(k, v)]))).
  { rewrite map_app. apply NoDup_app. split; [exact Hnd|].
    split; [|apply NoDup_singleton].
    intros x Hx Hx'. apply list_elem_of_singleton in Hx'. now subst x. }
  unfold LRUCache.too_big. rewrite length_app. cbn [length].
  destruct (Z.ltb_spec n (Z.of_nat (length m1 + 1))) as [Hbig|Hfit].
  - destruct m1 as [|[k0 v0] m1'].
    + cbn. rewrite decide_True by reflexivity. cbn.
      split; [constructor|cbn in *; lia].
    + cbn [app LRUCache.map_delete]. rewrite decide_True by reflexivity.
      unfold LRUCache.well_formed, LRUCache.keys_of. cbn [LRUCache._map].
      cbn [app map fst] in Hnd2. apply NoDup_cons in Hnd2 as [_ Hnd2].
      split; [exact Hnd2|]. rewrite length_app. cbn [length] in *. lia.
  - unfold LRUCache.well_formed, LRUCache.keys_of. cbn [LRUCache._map].
    split; [exact Hnd2|]. rewrite length_app. cbn [length]. lia.
Qed.

(** X18.  What [set] stores, [get] returns: after [set(key, value)],
    [get(key)] gives [value], whenever there is no size bound or the
    bound is one entry at least. *)
Theorem LRUCache_get_set k v c :
  LRUCache.well_formed c ->
  (forall n, LRUCache._maxSize c = Some n -> (1 <= n)%Z) ->
  fst (LRUCache.get k (LRUCache.set k v c)) = Some v.
Proof.
  intros Hwf Hmax.
  destruct (set_entered k v c Hwf) as (Hnd & Hnot & Hset & _).
  unfold LRUCache.set. rewrite Hset.
  set (m1 := if LRUCache.map_has (LRUCache._map c) k
             then LRUCache.map_delete (LRUCache._map c) k
             else LRUCache._map c) in *.
  assert (Hfound : forall m, k ∉ map fst m ->
            fst (LRUCache.get k {| LRUCache._map := m ++ [(k, v)];
                                   LRUCache._maxSize := LRUCache._maxSize c |})
            = Some v).
  { intros m Hm. unfold LRUCache.get. cbn [LRUCache._map].
    assert (Hhas : LRUCache.map_has (m ++ [(k, v)]) k = true).
    { apply map_has_elem. rewrite map_app. apply elem_of_app. right.
      apply list_elem_of_here. }
    rewrite Hhas, (map_get_last _ _ _ Hm). reflexivity. }
  destruct (LRUCache.too_big (m1 ++ [(k, v)]) (LRUCache._maxSize c)) eqn:Hbig;
    [|now apply Hfound].
  unfold LRUCache.too_big in Hbig.
  destruct (LRUCache._maxSize c) as [n|] eqn:Hn; [|discriminate].
  specialize (Hmax n eq_refl). apply Z.ltb_lt in Hbig.
  rewrite length_app in Hbig. cbn [length] in Hbig.
  destruct m1 as [|[k0 v0] m1']; [cbn in Hbig; lia|].
  cbn [app LRUCache.map_delete]. rewrite decide_True by reflexivity.
  apply Hfound. cbn in Hnot. rewrite elem_of_cons in Hnot. tauto.
Qed.

(** X19.  The entry dropped by [set] is the oldest one: entering a new
    key in a full cache removes the first key of the map and nothing
    else, and the new key comes last. *)
Theorem LRUCache_set_drops_oldest k v c n :
  LRUCache.well_formed c ->
  k ∉ LRUCache.keys_of c ->
  LRUCache._maxSize c = Some n -> (1 <= n)%Z ->
  Z.of_nat (length (LRUCache._map c)) = n ->
  LRUCache._map (LRUCache.set k v c) = tail (LRUCache._map c) ++ [(k, v)].
Proof.
  intros Hwf Hk Hmax Hn Hfull.
  unfold LRUCache.set.
  rewrite (proj2 (map_has_false _ _) Hk), (map_set_new _ _ _ Hk), Hmax.
  unfold LRUCache.too_big. rewrite length_app. cbn [length].
  destruct (Z.ltb_spec n (Z.of_nat (length (LRUCache._map c) + 1)));
    [|lia].
  destruct (LRUCache._map c) as [|[k0 v0] m]; [cbn in Hfull; lia|].
  cbn [app LRUCache.map_delete LRUCache._map tail].
  now rewrite decide_True.
Qed.

Lemma get_hit_map k c v :
  LRUCache.well_formed c ->
  LRUCache.map_get (LRUCache._map c) k = Some v ->
  LRUCache.map_has (LRUCache._map c) k = true ->
  LRUCache._map (snd (LRUCache.get k c))
  = LRUCache.map_delete (LRUCache._map c) k ++ [(k, v)].
Proof.
  intros Hwf Hget Hhas. unfold LRUCache.get. rewrite Hhas, Hget.
  cbn [negb snd LRUCache._map]. apply map_set_new.
  apply (map_delete_NoDup _ k Hwf).
Qed.

Lemma map_has_get m k :
  LRUCache.map_has m k = true -> exists v, LRUCache.map_get m k = Some v.
Proof.
  induction m as [|[k0 v0] m IH]; simpl; [discriminate|].
  destruct (decide (k0 = k)) as [->|Hne]; [eauto|].
  rewrite bool_decide_eq_false_2 by exact Hne. exact IH.
Qed.

(** X20.  Reading refreshes: with room for two entries at least, the
    entry just read by [get] is not the one dropped when a new key is
    entered next. *)
Theorem LRUCache_get_protects k0 k v c n :
  LRUCache.well_formed c ->
  LRUCache.map_has (LRUCache._map c) k0 = true ->
  k ∉ LRUCache.keys_of c ->
  LRUCache._maxSize c = Some n -> (2 <= n)%Z ->
  let c' := LRUCache.set k v (snd (LRUCache.get k0 c)) in
  LRUCache.map_has (LRUCache._map c') k0 = true /\
  LRUCache.map_has (LRUCache._map c') k = true.
Proof.
  intros Hwf Hhas Hk Hmax Hn.
  destruct (map_has_get _ _ Hhas) as [v0 Hget].
  pose proof (get_hit_map k0 c v0 Hwf Hget Hhas) as Hmap.
  assert (Hne : k <> k0).
  { intros ->. apply Hk, map_has_elem, Hhas. }
  destruct (map_delete_NoDup _ k0 Hwf) as [Hnd Hnot].
  set (m0 := LRUCache.map_delete (LRUCache._map c) k0) in *.
  assert (Hk' : k ∉ map fst (m0 ++ [(k0, v0)])).
  { rewrite map_app, elem_of_app. intros [Hin|Hin].
    - apply Hk. eapply map_delete_keys, Hin.
    - apply list_elem_of_singleton in Hin. cbn in Hin. congruence. }
  assert (Hmax' : LRUCache._maxSize (snd (LRUCache.get k0 c)) = Some n).
  { unfold LRUCache.get. rewrite Hhas, Hget. exact Hmax. }
  cbv zeta. unfold LRUCache.set. rewrite Hmap, Hmax'.
  rewrite (proj2 (map_has_false _ _) Hk'), (map_set_new _ _ _ Hk').
  assert (Hend : forall m' : list (K * V),
            LRUCache.map_has (m' ++ [(k0, v0)] ++ [(k, v)]) k0 = true /\
            LRUCache.map_has (m' ++ [(k0, v0)] ++ [(k, v)]) k = true).
  { intros m'. split; apply map_has_elem; rewrite !map_app, !elem_of_app;
      right; [left|right]; apply list_elem_of_here. }
  rewrite <- app_assoc.
  destruct (LRUCache.too_big (m0 ++ [(k0, v0)] ++ [(k, v)]) (Some n)) eqn:Hbig.
  - destruct m0 as [|[k1 v1] m0'].
    + cbn in Hbig. apply Z.ltb_lt in Hbig. lia.
    + cbn [app LRUCache.map_delete LRUCache._map].
      rewrite decide_True by reflexivity. apply Hend.
  - apply Hend.
Qed.

End LRUCacheFacts.

Lemma LRUCache_set_bounded_witness :
  let c := LRUCache.set "b" 2 (LRUCache.set "a" 1
             (LRUCache.constructor (K := string) (V := nat) (Some 2%Z))) in
  LRUCache.well_formed c /\
  (Z.of_nat (length (LRUCache._map (LRUCache.set "c" 3%nat c))) <= 2)%Z.
Proof.
  intros c.
  assert (Hwf : LRUCache.well_formed c).
  { unfold LRUCache.well_formed. decide_by_compute. }
  split; [exact Hwf|].
  apply (LRUCache_set_bounded "c" 3%nat c 2 Hwf eq_refl). vm_compute. discriminate.
Defined.

Lemma LRUCache_get_set_witness :
  fst (LRUCache.get "a"
         (LRUCache.set "a" 1
            (LRUCache.constructor (K := string) (V := nat) (Some 1%Z))))
  = Some 1.
Proof.
  apply (LRUCache_get_set "a" 1 (LRUCache.constructor (Some 1%Z))).
  - constructor.
  - intros n [= <-]. lia.
Defined.

Lemma LRUCache_set_drops_oldest_witness :
  let c := LRUCache.set "b" 2 (LRUCache.set "a" 1
             (LRUCache.constructor (K := string) (V := nat) (Some 2%Z))) in
  LRUCache._map (LRUCache.set "c" 3%nat c) = [("b", 2%nat); ("c", 3%nat)].
Proof.
  intros c.
  rewrite (LRUCache_set_drops_oldest "c" 3%nat c 2).
  - reflexivity.
  - unfold LRUCache.well_formed. decide_by_compute.
  - decide_by_compute.
  - reflexivity.
  - lia.
  - reflexivity.
Defined.

Lemma LRUCache_get_protects_witness :
  let c := LRUCache.set "b" 2 (LRUCache.set "a" 1
             (LRUCache.constructor (K := string) (V := nat) (Some 2%Z))) in
  LRUCache.map_has (LRUCache._map (LRUCache.set "c" 3%nat (snd (LRUCache.get "a" c))))
    "a" = true.
Proof.
  intros c.
  apply (LRUCache_get_protects "a" "c" 3%nat c 2).
  - unfold LRUCache.well_formed. decide_by_compute.
  - reflexivity.
  - decide_by_compute.
  - reflexivity.
  - lia.
Defined.

(** ** The order of [keys] and the [keepAlive] flag *)

Lemma remove_sublist arr item : JsLib.remove arr item `sublist_of` arr.
Proof.
  induction arr as [|y arr IH]; simpl; [constructor|].
  destruct (String.eqb y item).
  - now apply sublist_cons.
  - now apply sublist_skip.
Qed.

Lemma pruneCacheEntry_keys_sublist k cur w :
  keys (snd (pruneCacheEntry k cur w)) `sublist_of` keys w.
Proof.
  pose proof (pruneCacheEntry_outcome k cur w) as Ho.
  destruct (pruneCacheEntry k cur w) as [[[]|e] w']; cbn [snd];
    destruct Ho as (_ & -> & _); [apply remove_sublist|reflexivity].
Qed.

(** X21.  A filter change and the teardown never reorder [keys]: however
    they end, the keys that remain are in the order they had (what is
    left of [keys] is a sublist of what it was). *)
Theorem pruning_keeps_order w :
  (forall filter, keys (snd (pruneCache filter w)) `sublist_of` keys w) /\
  keys (snd (destroyed w)) `sublist_of` keys w.
Proof.
  assert (Hstep : forall k cur w1 o w1',
            keys w1 `sublist_of` keys w ->
            pruneCacheEntry k cur w1 = (o, w1') ->
            keys w1' `sublist_of` keys w).
  { intros k cur w1 o w1' Hsub Hp.
    pose proof (pruneCacheEntry_keys_sublist k cur w1) as H1.
    rewrite Hp in H1. cbn [snd] in H1. now transitivity (keys w1). }
  split.
  - intros filter. destruct (pruneCache filter w) as [o w'] eqn:Hp.
    cbn [snd]. rewrite pruneCache_eq in Hp.
    apply (for_in_preserves (fun w1 => keys w1 `sublist_of` keys w)
             _ _) with (w := w) (o := o) (w' := w') in Hp;
      [exact Hp| |reflexivity].
    intros k w1 o1 w1' Hsub.
    destruct (rejected filter (cache w1) k); [|intros [= <- <-]; exact Hsub].
    now apply Hstep.
  - destruct (destroyed w) as [o w'] eqn:Hd. cbn [snd].
    unfold destroyed, bind, get in Hd.
    apply (for_in_preserves (fun w1 => keys w1 `sublist_of` keys w)
             _ _) with (w := w) (o := o) (w' := w') in Hd;
      [exact Hd| |reflexivity].
    intros k w1 o1 w1'. apply Hstep.
Qed.

Lemma pruneCacheEntry_keepAlive k cur w :
  keepAlive (snd (pruneCacheEntry k cur w)) = keepAlive w.
Proof.
  rewrite pruneCacheEntry_eq.
  destruct (cache_node (cache w) k) as [c|];
    [destruct (must_destroy (Some c) cur);
     [destruct (held w c) as [i|]; [destruct (destroy_raises i)|]|]|];
    reflexivity.
Qed.

(** X22.  [render] flags a vnode ([data.keepAlive]) exactly when the
    filter lets it into the cache and the cycle returns: a vnode the
    filter turns away is never flagged by the cycle, nor is one whose
    cycle raises. *)
Theorem render_flags v opts w :
  componentOptions v = Some opts ->
  let w' := snd (render (Some v) w) in
  vid v ∈ keepAlive w' <->
  vid v ∈ keepAlive w \/
  (cacheable (include w) (exclude w) (getComponentName (Some opts)) = true /\
   is_normal (fst (render (Some v) w)) = true).
Proof.
  intros Hco. cbv zeta. rewrite render_eq, Hco, cacheable_not_cached.
  destruct (not_cached _ _ _); cbn [negb].
  - cbn [snd fst]. split; [auto|]. intros [Hin|[Hf _]]; [exact Hin|discriminate].
  - destruct (cache_node (cache w) (cache_key v opts)) as [c|] eqn:Hc.
    + rewrite (render_cached_hit _ _ _ _ Hc). cbn [snd fst is_normal].
      world_fields. cbn [keepAlive].
      split; [right; auto|intros _; apply elem_of_union_l, elem_of_singleton_2;
                          reflexivity].
    + rewrite (render_cached_miss _ _ _ Hc). cbv zeta.
      destruct (over_capacity _ _).
      * pose proof (pruneCacheEntry_keepAlive
                      (default "undefined"
                         (head (keys (stored (cache_key v opts) v w))))
                      (_vnode w) (stored (cache_key v opts) v w)) as Hk.
        destruct (pruneCacheEntry _ _ _) as [[[]|e] w2];
          cbn [snd fst is_normal] in *.
        -- unfold flagged. cbn [keepAlive set_keepAlive].
           split; [right; auto|intros _; apply elem_of_union_l,
                               elem_of_singleton_2; reflexivity].
        -- rewrite Hk. cbn. split; [auto|].
           intros [Hin|[_ Hf]]; [exact Hin|discriminate].
      * cbn [snd fst is_normal]. world_fields. cbn [keepAlive].
        split; [right; auto|intros _; apply elem_of_union_l,
                            elem_of_singleton_2; reflexivity].
Qed.

Lemma render_flags_witness :
  let v := alloc 0 (component "A") in
  let w := created PUndefined PUndefined MaxUndefined in
  componentOptions v <> None /\ vid v ∈ keepAlive (snd (render (Some v) w)).
Proof.
  intros v w. split; [discriminate|].
  apply (render_flags v {| Ctor_cid := 42; Ctor_options_name := Some "A";
                           opts_tag := Some "A" |} w eq_refl).
  right. split; reflexivity.
Defined.
